(** * VoiceChat web client: a shallow embedding of [static/app.js]

    The client is a single script of event handlers over a handful of
    global variables and the page's DOM.  The repository carries the script
    in four revisions; they share [startRecording], [stopRecording],
    [addMessage] and [playAudioSequentially] verbatim and differ in
    [sendAudio] (and in whether [startSession] exists):

    - [Tutor]   : src/unnamed/part_000, lines 1-381   (sessions, tips, corrections panel)
    - [Legacy]  : src/unnamed/part_000, lines 383-503 (single reply, inline correction)
    - [Flags]   : src/static/app.js,   lines 1-200    (segments joined into one message)
    - [Scores]  : src/static/app.js,   lines 202-352  (one message per segment)

    Asynchronous functions are cut at their [await fetch]: a [_begin] part
    runs up to the request, a [_resume] part runs from the response (or the
    failure) to the end.  The wait for the microphone and the playback of
    a reply inside a continuation are run in one piece.  What the platform
    answers (microphone grant, HTTP outcome, what each audio clip does) is an
    explicit argument. *)

From stdpp Require Import base list strings.
From Stdlib Require Import QArith Qabs DecimalString.
Close Scope Q_scope.
Open Scope string_scope.
Open Scope list_scope.

(** ** Audio clips and sequential playback *)

Record AudioSegment := { a_lang : string; audio_url : string }.

(** What one [new Audio(url)] does after [audio.play()] has been called:
    it plays to its end ([onended]), fails to load ([onerror]), has its
    [play()] promise rejected, or never signals anything. *)
Inductive Playback := PlaysToEnd | LoadFails | StartRefused | Stalls.

(** Observable events of the audio facility; [k] is the position of the
    clip in the sequence handed to [playAudioSequentially]. *)
Inductive AudioEvent :=
  | Play (k : nat) (url : string)
  | Ended (k : nat)
  | Error (k : nat)
  | Refused (k : nat).

(** State of the promise an [async] function returns. *)
Inductive Settled := Resolved | Rejected | Pending.

#[global] Instance AudioEvent_eq_dec : EqDecision AudioEvent.
Proof. solve_decision. Defined.
#[global] Instance Settled_eq_dec : EqDecision Settled.
Proof. solve_decision. Defined.
#[global] Instance Playback_eq_dec : EqDecision Playback.
Proof. solve_decision. Defined.

(** [for (const segment of audioSegments) await new Promise(...)], with the
    cursor [k] of the iteration made explicit.  A rejection leaves the loop
    (the exception propagates); a promise that never settles leaves the
    whole call pending. *)
Fixpoint playFrom (env : nat → Playback) (k : nat) (audioSegments : list AudioSegment)
  : list AudioEvent * Settled :=
  match audioSegments with
  | [] => ([], Resolved)
  | segment :: rest =>
      let started := Play k (audio_url segment) in
      match env k with
      | PlaysToEnd =>
          let '(tr, r) := playFrom env (S k) rest in (started :: Ended k :: tr, r)
      | LoadFails => ([started; Error k], Rejected)
      | StartRefused => ([started; Refused k], Rejected)
      | Stalls => ([started], Pending)
      end
  end.

Definition playAudioSequentially (env : nat → Playback) (audioSegments : list AudioSegment)
  : list AudioEvent * Settled :=
  playFrom env 0 audioSegments.

(** Clips that have been started and have not yet signalled, after a trace. *)
Definition settle (k : nat) (act : list nat) : list nat :=
  filter (λ j, j ≠ k) act.

Definition active_step (act : list nat) (e : AudioEvent) : list nat :=
  match e with
  | Play k _ => k :: act
  | Ended k | Error k | Refused k => settle k act
  end.

Definition active (tr : list AudioEvent) : list nat := foldl active_step [] tr.

(** At no moment of the trace are two clips playing. *)
Definition no_overlap (tr : list AudioEvent) : Prop :=
  ∀ pre, pre `prefix_of` tr → (length (active pre) ≤ 1)%nat.

Definition started (tr : list AudioEvent) : list (nat * string) :=
  omap (λ e, match e with Play k u => Some (k, u) | _ => None end) tr.

Definition ended (tr : list AudioEvent) : list nat :=
  omap (λ e, match e with Ended k => Some k | _ => None end) tr.

Definition indexed_urls (k : nat) (l : list AudioSegment) : list (nat * string) :=
  imap (λ i s, (k + i, audio_url s)) l.


(** ** Values that arrive as JSON *)

(** JSON numbers are taken as rationals; a field that is absent (or [null])
    is [None]. *)
Record Segment := { lang : string; text : string }.

Record WordScore := { word : string; w_score : option Q }.

Record Prosody := {
  average_pitch_hz : option Q;
  speech_rate_wps : option Q;
  duration_s : option Q }.

Record Pronunciation := {
  score : option Q;
  words : option (list WordScore);
  prosody : option Prosody;
  feedback : option string }.

(** [is_correct] is only ever tested for truthiness. *)
Record UserAnalysis := {
  is_correct : bool;
  corrected_text : option string;
  explanation : option string }.

(** The body of a [/chat] response.  It is one JSON object; each revision
    of [sendAudio] reads the fields it knows. *)
Record ChatData := {
  user_text : string;
  ai_response : option string;
  correction : option string;
  reply_audio_url : option string;
  pronunciation_score : option Q;
  pronunciation : option Pronunciation;
  user_analysis : option UserAnalysis;
  segments : option (list Segment);
  audio_segments : option (list AudioSegment) }.

Record StartResponse := { r_segments : option (list Segment) }.

Record StartData := {
  session_id : option string;
  response : option StartResponse;
  start_audio_segments : option (list AudioSegment) }.

(** How [await fetch(...)] followed by [response.json()] turns out:
    the request fails, or a response arrives with its [ok] flag, its
    status text and, when it parses, its body. *)
Inductive FetchOutcome (D : Type) :=
  | NetworkError
  | Http (ok : bool) (status : string) (body : option D).
Arguments NetworkError {D}.
Arguments Http {D} ok status body.

(** ** JavaScript idioms *)

(** Truthiness of a string-valued field: absent and empty are falsy. *)
Definition truthy_str (o : option string) : option string :=
  match o with
  | Some s => if bool_decide (s = EmptyString) then None else Some s
  | None => None
  end.

(** Truthiness of a numeric field: absent and zero are falsy. *)
Definition truthy_num (o : option Q) : option Q :=
  match o with
  | Some q => if Qeq_bool q 0 then None else Some q
  | None => None
  end.

(** [x || 0] on a numeric field. *)
Definition or_zero (o : option Q) : Q := default 0%Q (truthy_num o).

(** [x >= n] *)
Definition geq (x : Q) (n : Z) : bool := Qle_bool (inject_Z n) x.

(** String conversion of a possibly undefined string in a concatenation. *)
Definition js_str (o : option string) : string := default "undefined" o.

Fixpoint zeros (n : nat) : string :=
  match n with O => EmptyString | S n => "0" +:+ zeros n end.

(** [Number.prototype.toFixed(f)] on a rational: the integer [n] nearest to
    [x * 10^f] (the larger one on a tie), printed in decimal with the point
    before the last [f] digits; a negative number is printed as the sign
    followed by the rendering of its absolute value.  (Magnitudes from
    1e21 on, which JavaScript prints with an exponent, are outside the
    range of the scores and metrics of this program.) *)
Definition toFixed (f : nat) (x : Q) : string :=
  let neg := Qlt_le_dec x 0 in
  let ax := Qabs x in
  let scale := (10 ^ Z.of_nat f)%Z in
  let n := ((2 * Qnum ax * scale + Z.pos (Qden ax)) / (2 * Z.pos (Qden ax)))%Z in
  let m := NilZero.string_of_uint (N.to_uint (Z.to_N n)) in
  let m := if decide (String.length m ≤ f)%nat
           then zeros (f + 1 - String.length m) +:+ m else m in
  let k := String.length m in
  let body := if decide (f = 0%nat) then m
              else String.substring 0 (k - f) m +:+ "." +:+ String.substring (k - f) f m in
  if neg then "-" +:+ body else body.

(** [classList.add(c)] *)
Definition classList_add (c : string) (cl : list string) : list string :=
  if bool_decide (c ∈ cl) then cl else cl ++ [c].

(** [classList.remove(c)] *)
Definition classList_remove (c : string) (cl : list string) : list string :=
  filter (λ d, d ≠ c) cl.

(** [classList.toggle(c)] *)
Definition classList_toggle (c : string) (cl : list string) : list string :=
  if bool_decide (c ∈ cl) then classList_remove c cl else cl ++ [c].

(** ** The page *)

(** One rendered segment of a reply: a [div.segment-block].  A tip holds a
    [button.tip-toggle] and a content [div] with its class list; plain text
    is a [div.segment-block.target-lang-text]. *)
Inductive SegDiv :=
  | Tip (toggleBtn : string) (contentDiv_classes : list string) (contentDiv_text : string)
  | TargetText (textContent : string).

Record WordBadge := { badge_class : string; badge_title : Q; badge_text : string }.

(** The markup [displayPronunciationFeedback] builds, as the tree it parses
    to (the interpolated strings are taken to hold no markup). *)
Record PronunciationPanel := {
  header : string;
  score_bar : string;
  score_fill_width : Q;
  words_analysis : option (list WordBadge);
  prosody_metrics : option (list string);
  feedback_message : option string }.

(** Likewise for [displayCorrection]. *)
Record CorrectionPanel := {
  header_class : string;
  icon : string;
  title : string;
  correction_text : option string;
  correction_explanation : option string }.

Inductive Content :=
  | TextContent (s : string)
  | InnerHTML (s : string)
  | Blocks (children : list SegDiv)
  | PronunciationHTML (p : PronunciationPanel)
  | CorrectionHTML (c : CorrectionPanel).

(** A child of [#chat-history]. *)
Record Entry := { classList : list string; content : Content }.

Record Select := { value : string; disabled : bool }.
Record Button := { btn_disabled : bool; btn_classes : list string }.

(** The elements of the page the script reads and writes.  The elements it
    looks up defensively ([startBtn], [#api-version-select] and, in
    [sendAudio], [#level-select]) may be missing; [lang_checked] is the
    value of [input[name=lang]:checked], if a radio is checked. *)
Record Page := {
  chatHistory : list Entry;
  statusText : string;
  recordBtn : list string;
  lang_checked : option string;
  lang_disabled : bool;
  level_select : option Select;
  api_version_select : option string;
  startBtn : option Button }.

(** ** Script state *)

Inductive RecorderState := inactive | recording | paused.

Definition Chunk := string.

Inductive FormValue :=
  | Field (v : string)
  | Blob (parts : list Chunk) (filename : string).

Record Request := { url : string; formData : list (string * FormValue) }.

(** A request that has been sent and whose continuation is suspended at
    its [await]; the continuation of either function closes over
    [sourceLang]. *)
Inductive Awaiting := AwaitStart | AwaitChat.

Record InFlight := { request : Request; awaiting : Awaiting; k_sourceLang : string }.

Inductive Effect :=
  | Alert (msg : string)
  | ConsoleError (msg : string)
  | Uncaught (msg : string)
  | Fetch (r : Request)
  | Sound (e : AudioEvent).

(** The globals of the script ([mediaRecorder] points into the recorders
    created so far, the newest last), the page, the suspended requests and
    the effects performed so far, oldest first. *)
Record App := {
  page : Page;
  mediaRecorder : option nat;
  recorders : list RecorderState;
  audioChunks : list Chunk;
  currentSessionId : option string;
  inflight : list InFlight;
  log : list Effect }.

Definition with_page (f : Page → Page) (st : App) : App :=
  {| page := f (page st); mediaRecorder := mediaRecorder st; recorders := recorders st;
     audioChunks := audioChunks st; currentSessionId := currentSessionId st;
     inflight := inflight st; log := log st |}.

Definition effect (e : Effect) (st : App) : App :=
  {| page := page st; mediaRecorder := mediaRecorder st; recorders := recorders st;
     audioChunks := audioChunks st; currentSessionId := currentSessionId st;
     inflight := inflight st; log := log st ++ [e] |}.

Definition effects (es : list Effect) (st : App) : App :=
  {| page := page st; mediaRecorder := mediaRecorder st; recorders := recorders st;
     audioChunks := audioChunks st; currentSessionId := currentSessionId st;
     inflight := inflight st; log := log st ++ es |}.

Definition set_history (h : list Entry) (pg : Page) : Page :=
  {| chatHistory := h; statusText := statusText pg; recordBtn := recordBtn pg;
     lang_checked := lang_checked pg; lang_disabled := lang_disabled pg;
     level_select := level_select pg; api_version_select := api_version_select pg;
     startBtn := startBtn pg |}.

Definition set_status (s : string) (pg : Page) : Page :=
  {| chatHistory := chatHistory pg; statusText := s; recordBtn := recordBtn pg;
     lang_checked := lang_checked pg; lang_disabled := lang_disabled pg;
     level_select := level_select pg; api_version_select := api_version_select pg;
     startBtn := startBtn pg |}.

Definition set_recordBtn (cl : list string) (pg : Page) : Page :=
  {| chatHistory := chatHistory pg; statusText := statusText pg; recordBtn := cl;
     lang_checked := lang_checked pg; lang_disabled := lang_disabled pg;
     level_select := level_select pg; api_version_select := api_version_select pg;
     startBtn := startBtn pg |}.

Definition set_lang_checked (l : option string) (pg : Page) : Page :=
  {| chatHistory := chatHistory pg; statusText := statusText pg; recordBtn := recordBtn pg;
     lang_checked := l; lang_disabled := lang_disabled pg;
     level_select := level_select pg; api_version_select := api_version_select pg;
     startBtn := startBtn pg |}.

Definition set_lang_disabled (b : bool) (pg : Page) : Page :=
  {| chatHistory := chatHistory pg; statusText := statusText pg; recordBtn := recordBtn pg;
     lang_checked := lang_checked pg; lang_disabled := b;
     level_select := level_select pg; api_version_select := api_version_select pg;
     startBtn := startBtn pg |}.

Definition set_level_select (s : option Select) (pg : Page) : Page :=
  {| chatHistory := chatHistory pg; statusText := statusText pg; recordBtn := recordBtn pg;
     lang_checked := lang_checked pg; lang_disabled := lang_disabled pg;
     level_select := s; api_version_select := api_version_select pg;
     startBtn := startBtn pg |}.

Definition set_api_version (v : option string) (pg : Page) : Page :=
  {| chatHistory := chatHistory pg; statusText := statusText pg; recordBtn := recordBtn pg;
     lang_checked := lang_checked pg; lang_disabled := lang_disabled pg;
     level_select := level_select pg; api_version_select := v;
     startBtn := startBtn pg |}.

Definition set_startBtn (b : option Button) (pg : Page) : Page :=
  {| chatHistory := chatHistory pg; statusText := statusText pg; recordBtn := recordBtn pg;
     lang_checked := lang_checked pg; lang_disabled := lang_disabled pg;
     level_select := level_select pg; api_version_select := api_version_select pg;
     startBtn := b |}.

Definition set_capture (mr : option nat) (rs : list RecorderState) (chunks : list Chunk)
    (st : App) : App :=
  {| page := page st; mediaRecorder := mr; recorders := rs; audioChunks := chunks;
     currentSessionId := currentSessionId st; inflight := inflight st; log := log st |}.

Definition set_sessionId (id : option string) (st : App) : App :=
  {| page := page st; mediaRecorder := mediaRecorder st; recorders := recorders st;
     audioChunks := audioChunks st; currentSessionId := id;
     inflight := inflight st; log := log st |}.

Definition set_inflight (fl : list InFlight) (st : App) : App :=
  {| page := page st; mediaRecorder := mediaRecorder st; recorders := recorders st;
     audioChunks := audioChunks st; currentSessionId := currentSessionId st;
     inflight := fl; log := log st |}.

(** ** Functions shared by all revisions *)

(** [addMessage(text, sender, isPlaceholder = false, isHtml = false)] *)
Definition addMessage (text sender : string) (isPlaceholder isHtml : bool) (st : App) : App :=
  let cl := classList_add sender (classList_add "message" []) in
  let cl := if isPlaceholder then classList_add "placeholder" cl else cl in
  let div := {| classList := cl;
                content := if isHtml then InnerHTML text else TextContent text |} in
  with_page (λ pg, set_history (chatHistory pg ++ [div]) pg) st.

(** [chatHistory.appendChild(div)] for an element built by the caller. *)
Definition appendChild (div : Entry) (st : App) : App :=
  with_page (λ pg, set_history (chatHistory pg ++ [div]) pg) st.

(** The selector [.message.user.placeholder]. *)
Definition is_placeholder (e : Entry) : bool :=
  bool_decide ("message" ∈ classList e)
  && bool_decide ("user" ∈ classList e)
  && bool_decide ("placeholder" ∈ classList e).

Fixpoint remove_first {A} (p : A → bool) (l : list A) : list A :=
  match l with
  | [] => []
  | x :: l => if p x then l else x :: remove_first p l
  end.

(** [const placeholder = document.querySelector('.message.user.placeholder');
     if (placeholder) placeholder.remove();] -- the first match in document
    order goes. *)
Definition remove_placeholder (st : App) : App :=
  with_page (λ pg, set_history (remove_first is_placeholder (chatHistory pg)) pg) st.

(** What the platform answers to a press: no [navigator.mediaDevices]
    at all, [getUserMedia] rejected, or a stream granted. *)
Inductive MicOutcome := NoCapability | Denied | Granted.

(** [startRecording(e)].  [Denied] stands for whatever makes the [try]
    block throw before the recorder is assigned. *)
Definition startRecording (mic : MicOutcome) (st : App) : App :=
  match mic with
  | NoCapability =>
      effect (Alert "Votre navigateur ne supporte pas l'enregistrement audio.") st
  | Denied =>
      effect (Alert "Impossible d'accéder au micro.")
        (effect (ConsoleError "Erreur d'accès au micro:") st)
  | Granted =>
      (* mediaRecorder = new MediaRecorder(stream); audioChunks = [];
         mediaRecorder.start() *)
      let fresh := length (recorders st) in
      let st := set_capture (Some fresh) (recorders st ++ [recording]) [] st in
      let st := with_page (λ pg, set_recordBtn (classList_add "recording" (recordBtn pg)) pg) st in
      with_page (set_status "Enregistrement...") st
  end.

(** [stopRecording(e)] *)
Definition stopRecording (st : App) : App :=
  match mediaRecorder st with
  | Some id =>
      match recorders st !! id with
      | Some inactive | None => st
      | Some _ =>
          let st := set_capture (Some id) (<[id := inactive]> (recorders st)) (audioChunks st) st in
          let st := with_page (λ pg, set_recordBtn (classList_remove "recording" (recordBtn pg)) pg) st in
          with_page (set_status "Traitement...") st
      end
  | None => st
  end.

(** [mediaRecorder.ondataavailable = event => { audioChunks.push(event.data); }]:
    the handler pushes onto whatever array the global holds when it runs. *)
Definition ondataavailable (data : Chunk) (st : App) : App :=
  set_capture (mediaRecorder st) (recorders st) (audioChunks st ++ [data]) st.

(** [await fetch(url, { method: 'POST', body: formData })]: the request
    leaves and the caller is suspended. *)
Definition fetch (u : string) (form : list (string * FormValue)) (a : Awaiting)
    (sourceLang : string) (st : App) : App :=
  let r := {| url := u; formData := form |} in
  set_inflight (inflight st ++ [{| request := r; awaiting := a; k_sourceLang := sourceLang |}])
    (effect (Fetch r) st).

(** Run [playAudioSequentially] inside an [async] caller: the events are
    performed; the caller goes on when the call resolves ([k]), enters its
    [catch] when it rejects ([h]) and stays suspended when it never
    settles. *)
Definition await_playback (env : nat → Playback) (audioSegments : list AudioSegment)
    (k h : App → App) (st : App) : App :=
  let '(tr, r) := playAudioSequentially env audioSegments in
  let st := effects (Sound <$> tr) st in
  match r with
  | Resolved => k st
  | Rejected => h st
  | Pending => st
  end.

Definition scoreClass (score : Q) : string :=
  if geq score 80 then "excellent" else if geq score 60 then "good" else "needs-work".

Definition scoreEmoji (score : Q) : string :=
  if geq score 80 then "🎯" else if geq score 60 then "👍" else "🔄".

Definition wordBadge (w : WordScore) : WordBadge :=
  let wordScore := or_zero (w_score w) in
  let wordClass := if geq wordScore 80 then "word-good"
                   else if geq wordScore 60 then "word-ok" else "word-bad" in
  {| badge_class := wordClass; badge_title := wordScore; badge_text := word w |}.

Definition prosodyMetrics (p : Prosody) : list string :=
  match truthy_num (average_pitch_hz p) with
  | Some x => ["🎵 Pitch: " +:+ toFixed 0 x +:+ " Hz"] | None => [] end
  ++ match truthy_num (speech_rate_wps p) with
     | Some x => ["⏱️ Vitesse: " +:+ toFixed 1 x +:+ " mots/s"] | None => [] end
  ++ match truthy_num (duration_s p) with
     | Some x => ["⏳ Durée: " +:+ toFixed 1 x +:+ "s"] | None => [] end.

Definition pronunciationPanel (p : Pronunciation) : PronunciationPanel :=
  let score := or_zero (score p) in
  {| header := scoreEmoji score +:+ " Prononciation: " +:+ toFixed 1 score +:+ "%";
     score_bar := scoreClass score;
     score_fill_width := score;
     words_analysis :=
       match words p with
       | Some (w :: ws) =>
           Some (foldl (λ html word, (html ++ [wordBadge word])%list) [] (w :: ws))
       | _ => None
       end;
     prosody_metrics := prosodyMetrics <$> prosody p;
     feedback_message := truthy_str (feedback p) |}.

(** [displayPronunciationFeedback(pronunciation)] (Tutor and Flags) *)
Definition displayPronunciationFeedback (p : Pronunciation) (st : App) : App :=
  appendChild {| classList := classList_add "pronunciation-panel" [];
                 content := PronunciationHTML (pronunciationPanel p) |} st.

(** The [catch] block of [sendAudio], the same in every revision. *)
Definition sendAudio_catch (st : App) : App :=
  let st := effect (ConsoleError "error") st in
  let st := with_page (set_status "Erreur") st in
  let st := addMessage "Erreur lors du traitement." "system" false false st in
  remove_placeholder st.

(** ** The tutoring client (src/unnamed/part_000, lines 1-381) *)

Module Tutor.

(** [segment.lang === 'fr' ? '🇫🇷' : (segment.lang === 'ru' ? '🇷🇺' : '')] *)
Definition langFlag (l : string) : string :=
  if bool_decide (l = "fr") then "🇫🇷"
  else if bool_decide (l = "ru") then "🇷🇺" else EmptyString.

(** The body of the [forEach] callback of both renderers, up to the
    [appendChild]: the [segDiv] built for one segment. *)
Definition renderSegment (sourceLang : string) (segment : Segment) : SegDiv :=
  let langFlag := langFlag (lang segment) in
  let isNative := bool_decide (lang segment = sourceLang) in
  if isNative
  then Tip ("💡 Traduction (" +:+ langFlag +:+ ")")
           (classList_add "hidden-content" []) (text segment)
  else TargetText (langFlag +:+ " " +:+ text segment).

(** [segments.forEach(segment => { ...; responseContainer.appendChild(segDiv); })] *)
Definition responseContainer (sourceLang : string) (segs : list Segment) : Entry :=
  {| classList := classList_add "ai" (classList_add "message" []);
     content := Blocks (foldl (λ children segment,
                                 (children ++ [renderSegment sourceLang segment])%list)
                              [] segs) |}.

(** [toggleBtn.onclick = () => { contentDiv.classList.toggle('visible'); }] *)
Definition toggle_onclick (b : SegDiv) : SegDiv :=
  match b with
  | Tip btn cl t => Tip btn (classList_toggle "visible" cl) t
  | TargetText t => TargetText t
  end.

(** Modelled from the spec: the style sheet (static/style.css) is not
    part of the sources; a tip is "rendered collapsed with an explicit
    toggle control that the user must activate to reveal the text", so
    the content of a [hidden-content] element shows only while it also
    carries the class [visible]. *)
Definition visible (b : SegDiv) : bool :=
  match b with
  | Tip _ cl _ => negb (bool_decide ("hidden-content" ∈ cl)) || bool_decide ("visible" ∈ cl)
  | TargetText _ => true
  end.

(** [displayCorrection(analysis)] *)
Definition displayCorrection (analysis : UserAnalysis) (st : App) : App :=
  match truthy_str (corrected_text analysis), truthy_str (explanation analysis) with
  | None, None => st
  | corrected, explained =>
      let isCorrect := is_correct analysis in
      appendChild
        {| classList := classList_add "correction-panel" [];
           content := CorrectionHTML
             {| header_class := if isCorrect then "correct" else "incorrect";
                icon := if isCorrect then "✨" else "💡";
                title := if isCorrect then "Parfait !" else "Correction";
                correction_text := if isCorrect then None else corrected;
                correction_explanation := explained |} |} st
  end.

Definition targetLang (selectedLang : string) : string :=
  if bool_decide (selectedLang = "fr") then "ru" else "fr".

(** [startSession()], up to [await fetch('/start', ...)]. *)
Definition startSession_begin (st : App) : App :=
  let st := with_page (set_status "Starting session...") st in
  match lang_checked (page st) with
  | None => effect (Uncaught "TypeError") st
  | Some selectedLang =>
      let sourceLang := selectedLang in
      match level_select (page st) with
      | None => effect (Uncaught "TypeError") st
      | Some sel =>
          let level := value sel in
          fetch "/start"
            [("source_lang", Field sourceLang);
             ("target_lang", Field (targetLang selectedLang));
             ("level", Field level)]
            AwaitStart sourceLang st
      end
  end.

(** The [catch] block of [startSession]. *)
Definition startSession_catch (st : App) : App :=
  with_page (set_status "Error starting.") (effect (ConsoleError "Error starting:") st).

(** The "Disable controls" lines; each element is looked up again and
    dereferenced, so a missing one throws where it is reached. *)
Definition disable_controls (k h : App → App) (st : App) : App :=
  match level_select (page st) with
  | None => h st
  | Some sel =>
      let st := with_page (set_level_select (Some {| value := value sel; disabled := true |})) st in
      let st := with_page (set_lang_disabled true) st in
      match startBtn (page st) with
      | None => h st
      | Some b =>
          k (with_page (set_startBtn
               (Some {| btn_disabled := true;
                        btn_classes := classList_add "disabled" (btn_classes b) |})) st)
      end
  end.

(** [startSession()], from the settlement of the request to the end. *)
Definition startSession_resume (sourceLang : string) (o : FetchOutcome StartData)
    (env : nat → Playback) (st : App) : App :=
  match o with
  | NetworkError | Http false _ _ | Http true _ None => startSession_catch st
  | Http true _ (Some data) =>
      let st :=
        match response data with
        | Some {| r_segments := Some segs |} => appendChild (responseContainer sourceLang segs) st
        | _ => addMessage "👋 (Welcome)" "ai" false false st
        end in
      let st := set_sessionId (session_id data) st in
      disable_controls
        (λ st,
           let done := with_page (set_status "Your turn (Press Mic)") in
           match start_audio_segments data with
           | Some audio => await_playback env audio done startSession_catch st
           | None => done st
           end)
        startSession_catch st
  end.

(** The form [sendAudio] fills in for the checked language [selectedLang]. *)
Definition chatForm (selectedLang : string) (st : App) : list (string * FormValue) :=
  let audioBlob := Blob (audioChunks st) "recording.webm" in
  let sourceLang := selectedLang in
  let formData :=
    [("audio", audioBlob);
     ("source_lang", Field sourceLang);
     ("target_lang", Field (targetLang selectedLang))] in
  let formData :=
    match api_version_select (page st) with
    | Some v => formData ++ [("api_version", Field (default "v1" (truthy_str (Some v))))]
    | None => formData
    end in
  let level := match level_select (page st) with Some sel => value sel | None => "A1" end in
  formData ++ [("level", Field level)].

(** [sendAudio()], up to [await fetch('/chat', ...)]. *)
Definition sendAudio_begin (st : App) : App :=
  match lang_checked (page st) with
  | None => effect (Uncaught "TypeError") st
  | Some selectedLang =>
      let sourceLang := selectedLang in
      let formData := chatForm selectedLang st in
      let st := addMessage "..." "user" true false st in
      fetch "/chat" formData AwaitChat sourceLang st
  end.

(** [sendAudio()], from the settlement of the request to the end. *)
Definition sendAudio_resume (sourceLang : string) (o : FetchOutcome ChatData)
    (env : nat → Playback) (st : App) : App :=
  match o with
  | NetworkError | Http false _ _ | Http true _ None => sendAudio_catch st
  | Http true _ (Some data) =>
      let st := remove_placeholder st in
      let st := addMessage (user_text data) "user" false false st in
      let st := match pronunciation data with
                | Some p => displayPronunciationFeedback p st
                | None => st
                end in
      let st := match user_analysis data with
                | Some a => displayCorrection a st
                | None => st
                end in
      let st := match segments data with
                | Some (s :: segs) => appendChild (responseContainer sourceLang (s :: segs)) st
                | _ => st
                end in
      let done := with_page (set_status "Prêt") in
      match audio_segments data with
      | Some (a :: audio) => await_playback env (a :: audio) done sendAudio_catch st
      | _ => done st
      end
  end.

(** [sendAudio] and [startSession] run in one piece: the request is
    answered before anything else happens. *)
Definition sendAudio (o : FetchOutcome ChatData) (env : nat → Playback) (st : App) : App :=
  match lang_checked (page st) with
  | None => sendAudio_begin st
  | Some sourceLang =>
      let st := sendAudio_begin st in
      sendAudio_resume sourceLang o env (set_inflight (removelast (inflight st)) st)
  end.

Definition startSession (o : FetchOutcome StartData) (env : nat → Playback) (st : App) : App :=
  let st' := startSession_begin st in
  match lang_checked (page st), level_select (page st) with
  | Some sourceLang, Some _ =>
      startSession_resume sourceLang o env (set_inflight (removelast (inflight st')) st')
  | _, _ => st'
  end.

(** *** The event loop *)

(** What can happen next: a gesture on the record button, an event of a
    media recorder, a click on the start button, the settlement of the
    [i]-th suspended request, the user editing a session control or the
    API version, or a click on the toggle of block [j] of entry [i]. *)
Inductive Action :=
  | Press (mic : MicOutcome)
  | Release
  | DataAvailable (data : Chunk)
  | Stopped
  | ClickStart
  | StartSettles (i : nat) (o : FetchOutcome StartData) (env : nat → Playback)
  | ChatSettles (i : nat) (o : FetchOutcome ChatData) (env : nat → Playback)
  | PickLang (l : string)
  | PickLevel (v : string)
  | PickApiVersion (v : string)
  | ClickToggle (i j : nat).

Definition toggle_entry (j : nat) (e : Entry) : Entry :=
  match content e with
  | Blocks bs => {| classList := classList e;
                    content := Blocks (alter toggle_onclick j bs) |}
  | _ => e
  end.

(** A disabled control does not react to the user: a disabled button
    fires no [click], a disabled radio or select keeps its value. *)
Definition step (a : Action) (st : App) : App :=
  match a with
  | Press mic => startRecording mic st
  | Release => stopRecording st
  | DataAvailable data => ondataavailable data st
  | Stopped => sendAudio_begin st
  | ClickStart =>
      match startBtn (page st) with
      | Some b => if btn_disabled b then st else startSession_begin st
      | None => st
      end
  | StartSettles i o env =>
      match inflight st !! i with
      | Some {| awaiting := AwaitStart; k_sourceLang := sourceLang |} =>
          startSession_resume sourceLang o env (set_inflight (delete i (inflight st)) st)
      | _ => st
      end
  | ChatSettles i o env =>
      match inflight st !! i with
      | Some {| awaiting := AwaitChat; k_sourceLang := sourceLang |} =>
          sendAudio_resume sourceLang o env (set_inflight (delete i (inflight st)) st)
      | _ => st
      end
  | PickLang l =>
      if lang_disabled (page st) then st
      else with_page (set_lang_checked (Some l)) st
  | PickLevel v =>
      match level_select (page st) with
      | Some sel =>
          if disabled sel then st
          else with_page (set_level_select (Some {| value := v; disabled := false |})) st
      | None => st
      end
  | PickApiVersion v =>
      match api_version_select (page st) with
      | Some _ => with_page (set_api_version (Some v)) st
      | None => st
      end
  | ClickToggle i j =>
      with_page (λ pg, set_history (alter (toggle_entry j) i (chatHistory pg)) pg) st
  end.

Definition run (acts : list Action) (st : App) : App :=
  foldl (λ st a, step a st) st acts.

(** The page as it is loaded, before any handler has run. *)
Definition loaded (selectedLang level : string) : App :=
  {| page := {| chatHistory := []; statusText := EmptyString; recordBtn := [];
                lang_checked := Some selectedLang; lang_disabled := false;
                level_select := Some {| value := level; disabled := false |};
                api_version_select := None;
                startBtn := Some {| btn_disabled := false; btn_classes := [] |} |};
     mediaRecorder := None; recorders := []; audioChunks := [];
     currentSessionId := None; inflight := []; log := [] |}.

(** The capture controller is recording when the current recorder is
    live, and processing while an upload is suspended at its [await]. *)
Definition is_recording (st : App) : Prop :=
  ∃ id, mediaRecorder st = Some id ∧ recorders st !! id = Some recording.

Definition is_processing (st : App) : Prop :=
  ∃ fl, fl ∈ inflight st ∧ awaiting fl = AwaitChat.

Definition controls_disabled (st : App) : Prop :=
  lang_disabled (page st) = true
  ∧ (∃ v, level_select (page st) = Some {| value := v; disabled := true |})
  ∧ (∃ cl, startBtn (page st) = Some {| btn_disabled := true; btn_classes := cl |}).

(** The session parameters as the script knows them: they live in the
    controls and are read again for every request. *)
Definition parameters (st : App) : option string * option string * option string :=
  (lang_checked (page st),
   targetLang <$> lang_checked (page st),
   value <$> level_select (page st)).

End Tutor.

(** ** The first client (src/unnamed/part_000, lines 383-503) *)

Module Legacy.

Definition sentinel : string := "aucune correction nécessaire".

Definition dquote : string := String (Ascii.ascii_of_nat 34) EmptyString.

(** [sendAudio()], up to [await fetch('/chat', ...)]. *)
Definition sendAudio_begin (st : App) : App :=
  let audioBlob := Blob (audioChunks st) "recording.webm" in
  match lang_checked (page st) with
  | None => effect (Uncaught "TypeError") st
  | Some selectedLang =>
      let sourceLang := selectedLang in
      let formData :=
        [("audio", audioBlob);
         ("source_lang", Field sourceLang);
         ("target_lang", Field (Tutor.targetLang selectedLang))] in
      let st := addMessage "..." "user" true false st in
      fetch "/chat" formData AwaitChat sourceLang st
  end.

Section WithCaseMapping.
(** [String.prototype.toLowerCase], the platform's Unicode lower-casing. *)
Variable toLowerCase : string → string.

(** [data.correction && data.correction.toLowerCase() !== "aucune correction nécessaire"] *)
Definition shown_correction (data : ChatData) : option string :=
  match truthy_str (correction data) with
  | Some c => if bool_decide (toLowerCase c ≠ sentinel) then Some c else None
  | None => None
  end.

Definition aiContent (data : ChatData) : option string :=
  match shown_correction data with
  | Some c => Some (js_str (ai_response data)
                    +:+ "<span class=" +:+ dquote +:+ "correction" +:+ dquote +:+ ">"
                    +:+ c +:+ "</span>")
  | None => ai_response data
  end.

(** [sendAudio()], from the settlement of the request to the end.  The
    single reply clip is started and not awaited. *)
Definition sendAudio_resume (o : FetchOutcome ChatData) (st : App) : App :=
  match o with
  | NetworkError | Http false _ _ | Http true _ None => sendAudio_catch st
  | Http true _ (Some data) =>
      let st := remove_placeholder st in
      let st := addMessage (user_text data) "user" false false st in
      let st := addMessage (js_str (aiContent data)) "ai" false true st in
      let st := match truthy_str (reply_audio_url data) with
                | Some u => effect (Sound (Play 0 u)) st
                | None => st
                end in
      with_page (set_status "Prêt") st
  end.
End WithCaseMapping.

(** Lower-casing of the UTF-8 text of a string, for the Basic Latin and
    Latin-1 Supplement letters (A-Z; the two-byte sequences C3 80 .. C3 9E
    without the multiplication sign C3 97); every other byte is kept. *)
Fixpoint lower_latin (after_c3 : bool) (s : string) : string :=
  match s with
  | EmptyString => EmptyString
  | String a s =>
      let n := Ascii.nat_of_ascii a in
      if after_c3 then
        (if decide (128 ≤ n ∧ n ≤ 158 ∧ n ≠ 151)%nat
         then String (Ascii.ascii_of_nat (n + 32)) (lower_latin false s)
         else String a (lower_latin false s))
      else if decide (65 ≤ n ∧ n ≤ 90)%nat
           then String (Ascii.ascii_of_nat (n + 32)) (lower_latin false s)
           else String a (lower_latin (bool_decide (n = 195%nat)) s)
  end.

Definition toLowerCase_latin (s : string) : string := lower_latin false s.

End Legacy.

(** ** src/static/app.js, lines 1-200 *)

Module Flags.

(** [segment.lang === 'fr' ? '🇫🇷' : '🇷🇺'] *)
Definition langFlag (l : string) : string :=
  if bool_decide (l = "fr") then "🇫🇷" else "🇷🇺".

(** [sendAudio()], up to [await fetch('/chat', ...)]. *)
Definition sendAudio_begin (st : App) : App :=
  let audioBlob := Blob (audioChunks st) "recording.webm" in
  match lang_checked (page st) with
  | None => effect (Uncaught "TypeError") st
  | Some selectedLang =>
      let sourceLang := selectedLang in
      let formData :=
        [("audio", audioBlob);
         ("source_lang", Field sourceLang);
         ("target_lang", Field (Tutor.targetLang selectedLang))] in
      let formData :=
        match api_version_select (page st) with
        | Some v => (formData ++ [("api_version", Field (default "v1" (truthy_str (Some v))))])%list
        | None => formData
        end in
      let st := addMessage "..." "user" true false st in
      fetch "/chat" formData AwaitChat sourceLang st
  end.

(** The [forEach((segment, index) => ...)] that builds [combinedMessage]. *)
Fixpoint combine_from (index : nat) (combinedMessage : string) (segs : list Segment) : string :=
  match segs with
  | [] => combinedMessage
  | segment :: rest =>
      let combinedMessage :=
        if decide (0 < index)%nat then combinedMessage +:+ " " else combinedMessage in
      combine_from (S index)
        (combinedMessage +:+ langFlag (lang segment) +:+ " " +:+ text segment) rest
  end.

Definition combinedMessage (segs : list Segment) : string := combine_from 0 EmptyString segs.

(** [sendAudio()], from the settlement of the request to the end. *)
Definition sendAudio_resume (o : FetchOutcome ChatData) (env : nat → Playback)
    (st : App) : App :=
  match o with
  | NetworkError | Http false _ _ | Http true _ None => sendAudio_catch st
  | Http true _ (Some data) =>
      let st := remove_placeholder st in
      let st := addMessage (user_text data) "user" false false st in
      let st := match pronunciation data with
                | Some p => displayPronunciationFeedback p st
                | None => st
                end in
      let st := match segments data with
                | Some (s :: segs) => addMessage (combinedMessage (s :: segs)) "ai" false false st
                | _ => st
                end in
      let done := with_page (set_status "Prêt") in
      match audio_segments data with
      | Some (a :: audio) => await_playback env (a :: audio) done sendAudio_catch st
      | _ => done st
      end
  end.

End Flags.

(** ** src/static/app.js, lines 202-352 *)

Module Scores.

Definition langFlag (l : string) : string :=
  if bool_decide (l = "fr") then "🇫🇷" else "🇷🇺".

Definition langName (l : string) : string :=
  if bool_decide (l = "fr") then "Français" else "Русский".

Definition sendAudio_begin : App → App := Flags.sendAudio_begin.

Section WithNumberToString.
(** The string a template literal makes of a number. *)
Variable numberToString : Q → string.

Definition scoreMessage (score : Q) : string :=
  let scoreEmoji := if geq score 80 then "🎯" else if geq score 50 then "👍" else "🔄" in
  scoreEmoji +:+ " Prononciation: " +:+ numberToString score +:+ "%".

Definition segmentMessage (segment : Segment) : string :=
  langFlag (lang segment) +:+ " <strong>" +:+ langName (lang segment)
    +:+ ":</strong> " +:+ text segment.

(** [data.segments.forEach(segment => { ...; addMessage(..., "ai", false, true); })] *)
Definition displaySegments (segs : list Segment) (st : App) : App :=
  foldl (λ st segment, addMessage (segmentMessage segment) "ai" false true st) st segs.

(** [sendAudio()], from the settlement of the request to the end. *)
Definition sendAudio_resume (o : FetchOutcome ChatData) (env : nat → Playback)
    (st : App) : App :=
  match o with
  | NetworkError | Http false _ _ | Http true _ None => sendAudio_catch st
  | Http true _ (Some data) =>
      let st := remove_placeholder st in
      let st := addMessage (user_text data) "user" false false st in
      let st := match pronunciation_score data with
                | Some score => addMessage (scoreMessage score) "score" false false st
                | None => st
                end in
      let st := match truthy_str (correction data) with
                | Some c => addMessage ("✓ Correction: " +:+ c) "correction" false false st
                | None => st
                end in
      let st := match segments data with
                | Some (s :: segs) => displaySegments (s :: segs) st
                | _ => st
                end in
      let done := with_page (set_status "Prêt") in
      match audio_segments data with
      | Some (a :: audio) => await_playback env (a :: audio) done sendAudio_catch st
      | _ => done st
      end
  end.
End WithNumberToString.

End Scores.

(** ** Reading the page back *)

(** The segment blocks of a rendered reply. *)
Definition children (e : Entry) : list SegDiv :=
  match content e with Blocks bs => bs | _ => [] end.

(** The text a segment block carries. *)
Definition block_text (b : SegDiv) : string :=
  match b with Tip _ _ t => t | TargetText t => t end.

Definition history (st : App) : list Entry := chatHistory (page st).

(** The entries of the history that are not the transient placeholder. *)
Definition settled_entries (h : list Entry) : list Entry :=
  filter (λ e, is_placeholder e = false) h.

(** [base] is an initial stretch of the settled entries of [st]. *)
Definition extends (base : list Entry) (st : App) : Prop :=
  base `prefix_of` settled_entries (history st).

(** An entry without the open/closed state of its tips. *)
Definition fold_tip (b : SegDiv) : SegDiv :=
  match b with Tip btn _ t => Tip btn [] t | TargetText t => TargetText t end.

Definition skeleton (e : Entry) : Entry :=
  match content e with
  | Blocks bs => {| classList := classList e; content := Blocks (fold_tip <$> bs) |}
  | _ => e
  end.

(** The session controls: which language is checked, and the state of the
    radios, the level select and the start button. *)
Definition controls (st : App)
  : option string * bool * option Select * option Button :=
  (lang_checked (page st), lang_disabled (page st),
   level_select (page st), startBtn (page st)).

(** The controls are disabled and hold the parameters [p]. *)
Definition latched (p : option string * option string * option string) (st : App) : Prop :=
  Tutor.controls_disabled st ∧ Tutor.parameters st = p.

(** A request that did not get through: no response, or a status outside
    the success range. *)
Definition transport_failure {D} (o : FetchOutcome D) : Prop :=
  match o with NetworkError => True | Http ok _ _ => ok = false end.

Definition placeholder_entry : Entry :=
  {| classList := ["message"; "user"; "placeholder"]; content := TextContent "..." |}.

Definition error_entry : Entry :=
  {| classList := ["message"; "system"]; content := TextContent "Erreur lors du traitement." |}.

(** ** Sample inputs *)

Definition clip (u : string) : AudioSegment := {| a_lang := "fr"; audio_url := u |}.

(** The second of three clips fails to load. *)
Definition second_fails (k : nat) : Playback :=
  match k with 1 => LoadFails | _ => PlaysToEnd end.

Definition tip_fr : Segment := {| lang := "fr"; text := "En russe on dit" |}.
Definition hello_ru : Segment := {| lang := "ru"; text := "Здравствуйте" |}.
Definition hello_en : Segment := {| lang := "en"; text := "Hello" |}.

(** A [/chat] body with a transcript, segments and clips and nothing else. *)
Definition reply (segs : option (list Segment)) (audio : option (list AudioSegment)) : ChatData :=
  {| user_text := "Bonjour"; ai_response := None; correction := None;
     reply_audio_url := None; pronunciation_score := None; pronunciation := None;
     user_analysis := None; segments := segs; audio_segments := audio |}.

(** A press, a release and the recorder's two events on the fresh page:
    the upload of the first utterance is in flight. *)
Definition processing : App :=
  Tutor.run [Tutor.Press Granted; Tutor.Release; Tutor.DataAvailable "c"; Tutor.Stopped]
    (Tutor.loaded "fr" "A1").

Definition no_correction_needed : ChatData :=
  {| user_text := "Bonjour"; ai_response := Some "Привет !";
     correction := Some "Aucune correction nécessaire";
     reply_audio_url := None; pronunciation_score := None; pronunciation := None;
     user_analysis := Some {| is_correct := false;
                              corrected_text := Some "Aucune correction nécessaire";
                              explanation := None |};
     segments := None; audio_segments := None |}.

Definition unscored : Pronunciation :=
  {| score := None; words := None; prosody := None; feedback := None |}.

Definition unscored_reply : ChatData :=
  {| user_text := "Bonjour"; ai_response := None; correction := None;
     reply_audio_url := None; pronunciation_score := None; pronunciation := Some unscored;
     user_analysis := None; segments := Some [hello_ru]; audio_segments := None |}.

Definition greeting : StartData :=
  {| session_id := Some "s-1";
     response := Some {| r_segments := Some [tip_fr; hello_ru] |};
     start_audio_segments := Some [clip "a.mp3"; clip "b.mp3"] |}.

(** After the session has started the user tries the controls again. *)
Definition meddling : list Tutor.Action :=
  [Tutor.PickLang "ru"; Tutor.PickLevel "B2"; Tutor.ClickStart;
   Tutor.Press Granted; Tutor.Release; Tutor.Stopped].


(** ** Further readings of the state *)

(** The current recorder exists and is not inactive: what [stopRecording]
    tests before it stops it. *)
Definition live (st : App) : Prop :=
  ∃ id s, mediaRecorder st = Some id ∧ recorders st !! id = Some s ∧ s ≠ inactive.

(** One utterance as the event loop sees it: the press, the chunks the
    recorder delivers while it records, the release, the chunks it delivers
    on stopping, and its [stop] event. *)
Definition utterance (before after : list Chunk) : list Tutor.Action :=
  [Tutor.Press Granted] ++ (Tutor.DataAvailable <$> before) ++ [Tutor.Release]
  ++ (Tutor.DataAvailable <$> after) ++ [Tutor.Stopped].

(** The requests sent so far, oldest first. *)
Definition requests (st : App) : list Request :=
  omap (λ e, match e with Fetch r => Some r | _ => None end) (log st).

(** [FormData.get(name)]: the first value filed under [name]. *)
Fixpoint get (name : string) (form : list (string * FormValue)) : option FormValue :=
  match form with
  | [] => None
  | (k, v) :: form => if bool_decide (k = name) then Some v else get name form
  end.

(** A property of the state that the code running after a response keeps:
    it survives a new entry that is no placeholder, the removal of a
    placeholder, a new status line, the events of a playback and a line on
    the console. *)
Class Stable (P : App → Prop) : Prop := {
  stable_append e st : is_placeholder e = false → P st → P (appendChild e st);
  stable_remove st : P st → P (remove_placeholder st);
  stable_status s st : P st → P (with_page (set_status s) st);
  stable_sounds tr st : P st → P (effects (Sound <$> tr) st);
  stable_console m st : P st → P (effect (ConsoleError m) st) }.

(** ... and, for the continuation of [startSession], a new session
    identifier and the disabling of the controls. *)
Class StableStart (P : App → Prop) : Prop := {
  stable_start_rendering : Stable P;
  stable_sessionId id st : P st → P (set_sessionId id st);
  stable_level sel st : P st → P (with_page (set_level_select sel) st);
  stable_lang_disabled b st : P st → P (with_page (set_lang_disabled b) st);
  stable_startBtn b st : P st → P (with_page (set_startBtn b) st) }.

(** What [sendAudio] leaves alone once the response is there. *)
Definition untouched_by_rendering (st : App) :=
  (currentSessionId st, controls st, mediaRecorder st, recorders st, audioChunks st,
   inflight st, requests st).

(** Placeholders in the history, and uploads suspended at their [await]. *)
Definition placeholders (st : App) : nat :=
  length (filter (λ e, is_placeholder e = true) (history st)).

#[global] Instance Awaiting_eq_dec : EqDecision Awaiting.
Proof. solve_decision. Defined.

Definition uploads (st : App) : nat :=
  length (filter (λ fl, awaiting fl = AwaitChat) (inflight st)).

(** A request as the handlers can send it from the page [st]: the upload
    of [sendAudio], or the form of [startSession] behind an enabled start
    button. *)
Definition sent_from (st : App) (r : Request) : Prop :=
  ∃ l, lang_checked (page st) = Some l
       ∧ (r = {| url := "/chat"; formData := Tutor.chatForm l st |}
          ∨ ∃ sel cl,
              level_select (page st) = Some sel
              ∧ startBtn (page st) = Some {| btn_disabled := false; btn_classes := cl |}
              ∧ r = {| url := "/start";
                       formData := [("source_lang", Field l);
                                    ("target_lang", Field (Tutor.targetLang l));
                                    ("level", Field (value sel))] |}).

(** The request goes to one of the two endpoints and names two different
    languages, the target one of the two the tutor knows. *)
Definition well_addressed (r : Request) : Prop :=
  (url r = "/start" ∨ url r = "/chat")
  ∧ ∃ s t, get "source_lang" (formData r) = Some (Field s)
           ∧ get "target_lang" (formData r) = Some (Field t)
           ∧ s ≠ t ∧ (t = "fr" ∨ t = "ru").


(** ** What a response adds to the history *)

Definition user_entry (t : string) : Entry :=
  {| classList := ["message"; "user"]; content := TextContent t |}.

Definition panel_entry (p : Pronunciation) : Entry :=
  {| classList := ["pronunciation-panel"]; content := PronunciationHTML (pronunciationPanel p) |}.

Definition welcome_entry : Entry :=
  {| classList := ["message"; "ai"]; content := TextContent "👋 (Welcome)" |}.

(** The part of each optional field of a [/chat] body in the history. *)
Definition pronunciation_entries (o : option Pronunciation) : list Entry :=
  match o with Some p => [panel_entry p] | None => [] end.

Definition correction_entries (o : option UserAnalysis) : list Entry :=
  match o with
  | Some a =>
      match truthy_str (corrected_text a), truthy_str (explanation a) with
      | None, None => []
      | corrected, explained =>
          [{| classList := ["correction-panel"];
              content := CorrectionHTML
                {| header_class := if is_correct a then "correct" else "incorrect";
                   icon := if is_correct a then "✨" else "💡";
                   title := if is_correct a then "Parfait !" else "Correction";
                   correction_text := if is_correct a then None else corrected;
                   correction_explanation := explained |} |}]
      end
  | None => []
  end.

Definition reply_entries (sl : string) (o : option (list Segment)) : list Entry :=
  match o with Some (s :: segs) => [Tutor.responseContainer sl (s :: segs)] | _ => [] end.

Definition turn_entries (sl : string) (data : ChatData) : list Entry :=
  [user_entry (user_text data)] ++ pronunciation_entries (pronunciation data)
  ++ correction_entries (user_analysis data) ++ reply_entries sl (segments data).

(** The playback [sendAudio] waits for: none for a missing or empty list. *)
Definition turn_playback (env : nat → Playback) (o : option (list AudioSegment))
  : list AudioEvent * Settled :=
  match o with
  | Some (a :: audio) => playAudioSequentially env (a :: audio)
  | _ => ([], Resolved)
  end.

(** The playback [startSession] waits for: none for a missing list. *)
Definition start_playback (env : nat → Playback) (o : option (list AudioSegment))
  : list AudioEvent * Settled :=
  match o with
  | Some audio => playAudioSequentially env audio
  | None => ([], Resolved)
  end.

Definition greeting_entries (sl : string) (data : StartData) : list Entry :=
  match response data with
  | Some {| r_segments := Some segs |} => [Tutor.responseContainer sl segs]
  | _ => [welcome_entry]
  end.




(** The markup the first client appends to the reply for a correction. *)
Definition correction_span (toLowerCase : string → string) (o : option string) : string :=
  match truthy_str o with
  | Some c =>
      if bool_decide (toLowerCase c = Legacy.sentinel) then EmptyString
      else "<span class=" +:+ Legacy.dquote +:+ "correction" +:+ Legacy.dquote +:+ ">"
           +:+ c +:+ "</span>"
  | None => EmptyString
  end.

(* ================================================================= *)
(** * Theorems *)

(** ** Ordered playback *)

Section Playback.
Variable env : nat → Playback.

Lemma playFrom_started k l :
  started (playFrom env k l).1 `prefix_of` indexed_urls k l.
Proof.
  revert k; induction l as [|s l IH]; intros k; simpl; [done|].
  unfold indexed_urls; simpl. rewrite Nat.add_0_r.
  assert (Hshift : imap ((λ i s0, (k + i, audio_url s0)) ∘ S) l = indexed_urls (S k) l).
  { unfold indexed_urls. apply imap_ext. intros i x _. simpl. f_equal. lia. }
  rewrite Hshift.
  destruct (env k); simpl.
  - specialize (IH (S k)). destruct (playFrom env (S k) l) as [tr r]; simpl in *.
    by apply prefix_cons.
  - apply prefix_cons, prefix_nil.
  - apply prefix_cons, prefix_nil.
  - apply prefix_cons, prefix_nil.
Qed.

Lemma settle_self k : settle k [k] = [].
Proof. unfold settle. rewrite filter_cons. by case_decide. Qed.

(** Every prefix of a trace of the loop has no clip or one clip active,
    and the whole trace has none active unless the call is pending. *)
Lemma playFrom_active k l pre :
  pre `prefix_of` (playFrom env k l).1 →
  active pre = [] ∨ ∃ j, active pre = [j].
Proof.
  revert k pre; induction l as [|s l IH]; intros k pre Hpre; simpl in *.
  - apply prefix_nil_inv in Hpre as ->. by left.
  - assert (Hcase : ∀ (e : AudioEvent) tl,
               active_step [k] e = [] →
               (∀ p, p `prefix_of` tl → active p = [] ∨ ∃ j, active p = [j]) →
               pre `prefix_of` (Play k (audio_url s) :: e :: tl) →
               active pre = [] ∨ ∃ j, active pre = [j]).
    { intros e tl He Htl Hp.
      destruct pre as [|a pre]; [by left|].
      pose proof (prefix_cons_inv_1 _ _ _ _ Hp) as ->.
      apply prefix_cons_inv_2 in Hp.
      destruct pre as [|b pre]; [right; by exists k|].
      pose proof (prefix_cons_inv_1 _ _ _ _ Hp) as ->.
      apply prefix_cons_inv_2 in Hp.
      unfold active; simpl. fold (active_step [k] e). rewrite He.
      apply (Htl pre Hp). }
    destruct (env k); simpl in *.
    + specialize (IH (S k)).
      destruct (playFrom env (S k) l) as [tr r]; simpl in *.
      apply (Hcase (Ended k) tr); [|exact IH|exact Hpre].
      apply settle_self.
    + apply (Hcase (Error k) []); [| |exact Hpre].
      * apply settle_self.
      * intros p Hp. apply prefix_nil_inv in Hp as ->. by left.
    + apply (Hcase (Refused k) []); [| |exact Hpre].
      * apply settle_self.
      * intros p Hp. apply prefix_nil_inv in Hp as ->. by left.
    + destruct pre as [|a pre]; [by left|].
      pose proof (prefix_cons_inv_1 _ _ _ _ Hpre) as ->.
      apply prefix_cons_inv_2, prefix_nil_inv in Hpre as ->.
      right. by exists k.
Qed.

Lemma playFrom_no_overlap k l : no_overlap (playFrom env k l).1.
Proof.
  intros pre Hpre.
  destruct (playFrom_active k l pre Hpre) as [-> | [j ->]]; simpl; lia.
Qed.

Lemma playFrom_all_end k l :
  (∀ i, i < length l → env (k + i) = PlaysToEnd) →
  (playFrom env k l).2 = Resolved
  ∧ ended (playFrom env k l).1 = seq k (length l)
  ∧ started (playFrom env k l).1 = indexed_urls k l.
Proof.
  revert k; induction l as [|s l IH]; intros k Hall; simpl; [done|].
  pose proof (Hall 0 ltac:(simpl; lia)) as H0. rewrite Nat.add_0_r in H0. rewrite H0.
  destruct (IH (S k)) as (Hr & He & Hs).
  { intros i Hi. replace (S k + i) with (k + S i) by lia. apply Hall. simpl; lia. }
  destruct (playFrom env (S k) l) as [tr r]; simpl in *.
  split; [done|]. split; [by rewrite He|].
  rewrite Hs. unfold indexed_urls; simpl. rewrite Nat.add_0_r. f_equal.
  apply imap_ext. intros i x _. simpl. f_equal. lia.
Qed.

Lemma playFrom_halts k l n :
  n < length l →
  (∀ i, i < n → env (k + i) = PlaysToEnd) →
  env (k + n) = LoadFails ∨ env (k + n) = StartRefused →
  (playFrom env k l).2 = Rejected
  ∧ started (playFrom env k l).1 = take (S n) (indexed_urls k l)
  ∧ ended (playFrom env k l).1 = seq k n.
Proof.
  revert k l; induction n as [|n IH]; intros k l Hn Hbefore Hfail.
  - destruct l as [|s l]; simpl in *; [lia|].
    rewrite Nat.add_0_r in Hfail.
    unfold indexed_urls; simpl. rewrite take_0.
    destruct Hfail as [-> | ->]; simpl; by rewrite Nat.add_0_r.
  - destruct l as [|s l]; simpl in *; [lia|].
    pose proof (Hbefore 0 ltac:(lia)) as H0. rewrite Nat.add_0_r in H0. rewrite H0.
    destruct (IH (S k) l) as (Hr & Hs & He).
    { lia. }
    { intros i Hi. replace (S k + i) with (k + S i) by lia. apply Hbefore. lia. }
    { by replace (S k + n) with (k + S n) by lia. }
    destruct (playFrom env (S k) l) as [tr r]; simpl in *.
    split; [done|]. split; [|by rewrite He].
    rewrite Hs. unfold indexed_urls; simpl. rewrite Nat.add_0_r. do 2 f_equal.
    apply imap_ext. intros i x _. simpl. f_equal. lia.
Qed.

(** Whatever came before, nothing is started behind a clip that does not
    play to its end. *)
Lemma playFrom_never_past (k : nat) l (n j : nat) u :
  env n ≠ PlaysToEnd → (k ≤ n)%nat → (n < j)%nat → Play j u ∉ (playFrom env k l).1.
Proof.
  revert k; induction l as [|s l IH]; intros k Hn Hk Hj; simpl.
  - apply not_elem_of_nil.
  - destruct (env k) eqn:Hek; simpl.
    + assert (k ≠ n) by (intros ->; done).
      specialize (IH (S k) Hn ltac:(lia) Hj).
      destruct (playFrom env (S k) l) as [tr r]; simpl in *.
      rewrite !not_elem_of_cons. repeat split; [intros [=]; lia|done|done].
    + rewrite !not_elem_of_cons. repeat split; [intros [=]; lia|done|apply not_elem_of_nil].
    + rewrite !not_elem_of_cons. repeat split; [intros [=]; lia|done|apply not_elem_of_nil].
    + rewrite !not_elem_of_cons. repeat split; [intros [=]; lia|apply not_elem_of_nil].
Qed.
End Playback.

Lemma elem_of_started tr k u : Play k u ∈ tr ↔ (k, u) ∈ started tr.
Proof.
  unfold started. rewrite list_elem_of_omap. split.
  - intros H. exists (Play k u). by split.
  - intros (e & He & Hk). destruct e; simplify_eq. done.
Qed.

Lemma indexed_urls_position k l n j u :
  (j, u) ∈ take n (indexed_urls k l) → j < k + n.
Proof.
  intros H. apply list_elem_of_lookup in H as [i Hi].
  apply lookup_take_Some in Hi as [Hi Hlt].
  unfold indexed_urls in Hi. rewrite list_lookup_imap in Hi.
  destruct (l !! i); simplify_eq/=. lia.
Qed.

(** C1.  [playAudioSequentially] starts the clips in list order and one at
    a time: the clips it starts are, in order, an initial stretch of the
    sequence, and at no moment of its trace are two clips active.  When
    every clip plays to its end the call resolves after the [ended] signals
    of clips 0 .. N-1, in that order, and nothing else ended; on the empty
    sequence it resolves at once without any event; and when clip [k] is the
    first to fail (to load, or to start) the call rejects, the clips before
    it have ended and no clip at a position after [k] is ever started; in
    fact nothing is ever started behind a clip that does not play to its
    end. *)
Theorem playAudioSequentially_ordered (env : nat → Playback) (audioSegments : list AudioSegment) :
  started (playAudioSequentially env audioSegments).1 `prefix_of` indexed_urls 0 audioSegments
  ∧ no_overlap (playAudioSequentially env audioSegments).1
  ∧ ((∀ i, i < length audioSegments → env i = PlaysToEnd) →
     (playAudioSequentially env audioSegments).2 = Resolved
     ∧ ended (playAudioSequentially env audioSegments).1 = seq 0 (length audioSegments)
     ∧ started (playAudioSequentially env audioSegments).1 = indexed_urls 0 audioSegments)
  ∧ (audioSegments = [] → playAudioSequentially env audioSegments = ([], Resolved))
  ∧ (∀ k, k < length audioSegments →
          (∀ i, i < k → env i = PlaysToEnd) →
          env k = LoadFails ∨ env k = StartRefused →
          (playAudioSequentially env audioSegments).2 = Rejected
          ∧ ended (playAudioSequentially env audioSegments).1 = seq 0 k
          ∧ ∀ j u, k < j → Play j u ∉ (playAudioSequentially env audioSegments).1)
  ∧ (∀ k j u, env k ≠ PlaysToEnd → k < j →
              Play j u ∉ (playAudioSequentially env audioSegments).1).
Proof.
  unfold playAudioSequentially. repeat split.
  - apply playFrom_started.
  - apply playFrom_no_overlap.
  - by apply (playFrom_all_end env 0).
  - by apply (playFrom_all_end env 0).
  - by apply (playFrom_all_end env 0).
  - by intros ->.
  - by apply (playFrom_halts env 0 audioSegments k).
  - by apply (playFrom_halts env 0 audioSegments k).
  - intros j u Hj Hin%elem_of_started.
    destruct (playFrom_halts env 0 audioSegments k) as (_ & Hs & _); [done..|].
    rewrite Hs in Hin. apply indexed_urls_position in Hin. lia.
  - intros k j u Hk Hj. apply (playFrom_never_past env 0 audioSegments k); [done|lia|done].
Qed.

Lemma playAudioSequentially_ordered_witness :
  playAudioSequentially (λ _, PlaysToEnd) [clip "a.mp3"; clip "b.mp3"]
  = ([Play 0 "a.mp3"; Ended 0; Play 1 "b.mp3"; Ended 1], Resolved)
  ∧ (playAudioSequentially second_fails [clip "a.mp3"; clip "b.mp3"; clip "c.mp3"]).2 = Rejected
  ∧ Play 2 "c.mp3" ∉ (playAudioSequentially second_fails
                         [clip "a.mp3"; clip "b.mp3"; clip "c.mp3"]).1.
Proof.
  split; [reflexivity|].
  destruct (playAudioSequentially_ordered second_fails
              [clip "a.mp3"; clip "b.mp3"; clip "c.mp3"]) as (_ & _ & _ & _ & Hfail & _).
  destruct (Hfail 1) as (Hr & _ & Hnot).
  - simpl; lia.
  - intros i Hi. destruct i as [|i]; [reflexivity|lia].
  - left; reflexivity.
  - split; [exact Hr|]. apply Hnot. lia.
Defined.

Example playback_stalls :
  playAudioSequentially (λ _, Stalls) [clip "a.mp3"; clip "b.mp3"]
  = ([Play 0 "a.mp3"], Pending).
Proof. reflexivity. Qed.

(** ** Rendering of the segments *)

Lemma foldl_snoc_map {A B} (f : A → B) (l : list A) (init : list B) :
  foldl (λ acc x, acc ++ [f x]) init l = init ++ map f l.
Proof.
  revert init; induction l as [|x l IH]; intros init; simpl.
  - by rewrite app_nil_r.
  - rewrite IH. by rewrite <- app_assoc.
Qed.

Lemma responseContainer_children sourceLang segs :
  children (Tutor.responseContainer sourceLang segs)
  = map (Tutor.renderSegment sourceLang) segs.
Proof. unfold children; simpl. by rewrite foldl_snoc_map. Qed.

Lemma renderSegment_native sourceLang segment :
  lang segment = sourceLang →
  Tutor.renderSegment sourceLang segment
  = Tip ("💡 Traduction (" +:+ Tutor.langFlag (lang segment) +:+ ")")
        ["hidden-content"] (text segment).
Proof. intros H. unfold Tutor.renderSegment. by rewrite bool_decide_eq_true_2. Qed.

Lemma renderSegment_foreign sourceLang segment :
  lang segment ≠ sourceLang →
  Tutor.renderSegment sourceLang segment
  = TargetText (Tutor.langFlag (lang segment) +:+ " " +:+ text segment).
Proof. intros H. unfold Tutor.renderSegment. by rewrite bool_decide_eq_false_2. Qed.

(** C2.  In the reply the tutoring client renders for a list of segments,
    the block of a segment hides its text exactly when the segment's
    language is the source (native) language the renderer was given: such a
    segment becomes a tip, a toggle button over a [hidden-content] element
    holding the text, which shows once the toggle is clicked; any other
    segment becomes plain text, its flag followed by its text. *)
Theorem classify_hidden_iff_native (sourceLang : string) (segs : list Segment) :
  Forall2 (λ segment block,
      (Tutor.visible block = false ↔ lang segment = sourceLang)
      ∧ (lang segment = sourceLang →
         block = Tip ("💡 Traduction (" +:+ Tutor.langFlag (lang segment) +:+ ")")
                     ["hidden-content"] (text segment)
         ∧ Tutor.visible (Tutor.toggle_onclick block) = true)
      ∧ (lang segment ≠ sourceLang →
         block = TargetText (Tutor.langFlag (lang segment) +:+ " " +:+ text segment)))
    segs (children (Tutor.responseContainer sourceLang segs)).
Proof.
  rewrite responseContainer_children.
  induction segs as [|segment segs IH]; simpl; constructor; [|exact IH].
  destruct (decide (lang segment = sourceLang)) as [Heq|Hne].
  - rewrite (renderSegment_native _ _ Heq). repeat split; try done.
  - rewrite (renderSegment_foreign _ _ Hne). repeat split; try done.
Qed.

Lemma classify_hidden_iff_native_witness :
  children (Tutor.responseContainer "fr" [tip_fr; hello_ru])
  = [Tip "💡 Traduction (🇫🇷)" ["hidden-content"] "En russe on dit";
     TargetText "🇷🇺 Здравствуйте"]
  ∧ Forall2 (λ segment block, Tutor.visible block = false ↔ lang segment = "ru")
      [tip_fr; hello_ru] (children (Tutor.responseContainer "ru" [tip_fr; hello_ru])).
Proof.
  split; [reflexivity|].
  eapply Forall2_impl; [apply (classify_hidden_iff_native "ru" [tip_fr; hello_ru])|].
  intros segment block (H & _). exact H.
Defined.

Lemma append_assoc (a b c : string) : (a +:+ b) +:+ c = a +:+ (b +:+ c).
Proof.
  induction a as [|x a IH]; [done|].
  change (String x ((a +:+ b) +:+ c) = String x (a +:+ (b +:+ c))). by f_equal.
Qed.

Lemma append_empty_r (a : string) : a +:+ EmptyString = a.
Proof.
  induction a as [|x a IH]; [done|].
  change (String x (a +:+ EmptyString) = String x a). by f_equal.
Qed.

Lemma concat_empty_cons x xs :
  String.concat EmptyString (x :: xs) = x +:+ String.concat EmptyString xs.
Proof. destruct xs; [cbn [String.concat]; by rewrite append_empty_r|reflexivity]. Qed.

Lemma concat_join first pieces :
  first +:+ String.concat EmptyString (map (λ p, " " +:+ p) pieces)
  = String.concat " " (first :: pieces).
Proof.
  revert first; induction pieces as [|p pieces IH]; intros first.
  - cbn [map String.concat]. by rewrite append_empty_r.
  - cbn [map]. rewrite concat_empty_cons.
    change (String.concat " " (first :: p :: pieces))
      with (first +:+ " " +:+ String.concat " " (p :: pieces)).
    rewrite <- IH. by rewrite !append_assoc.
Qed.

(** After the first segment every further one is appended behind a space. *)
Lemma combine_from_later index acc segs :
  Flags.combine_from (S index) acc segs
  = acc +:+ String.concat EmptyString
              (map (λ p, " " +:+ p)
                 (map (λ segment, Flags.langFlag (lang segment) +:+ " " +:+ text segment) segs)).
Proof.
  revert index acc; induction segs as [|segment segs IH]; intros index acc.
  - cbn [map String.concat Flags.combine_from]. by rewrite append_empty_r.
  - cbn [Flags.combine_from]. rewrite decide_True by lia. rewrite IH.
    cbn [map]. rewrite concat_empty_cons. by rewrite !append_assoc.
Qed.

Lemma combinedMessage_concat segs :
  Flags.combinedMessage segs
  = String.concat " "
      (map (λ segment, Flags.langFlag (lang segment) +:+ " " +:+ text segment) segs).
Proof.
  unfold Flags.combinedMessage. destruct segs as [|segment segs]; [done|].
  cbn [Flags.combine_from]. rewrite decide_False by lia. rewrite combine_from_later.
  cbn [map]. rewrite <- concat_join. reflexivity.
Qed.

Lemma displaySegments_history segs st :
  history (Scores.displaySegments segs st)
  = history st
    ++ map (λ segment, {| classList := ["message"; "ai"];
                          content := InnerHTML (Scores.segmentMessage segment) |}) segs.
Proof.
  revert st; induction segs as [|segment segs IH]; intros st; simpl.
  - by rewrite app_nil_r.
  - unfold Scores.displaySegments in *. rewrite IH. unfold history; simpl.
    by rewrite <- app_assoc.
Qed.

(** C7, as the code has it.  Every renderer keeps the segments in the
    order received and leaves none out.  The tutoring client puts one
    segment block per segment into the reply, in list order, each carrying
    its segment's text; the client of app.js:202-352 appends one message per
    segment, in list order; the client of app.js:1-200 joins the segments,
    in list order and each behind its flag, into the text of one message. *)
Theorem segments_rendered_in_order (sourceLang : string) (segs : list Segment) (st : App) :
  children (Tutor.responseContainer sourceLang segs) = map (Tutor.renderSegment sourceLang) segs
  ∧ Forall2 (λ segment block,
               block_text block = text segment
               ∨ block_text block = Tutor.langFlag (lang segment) +:+ " " +:+ text segment)
      segs (children (Tutor.responseContainer sourceLang segs))
  ∧ history (Scores.displaySegments segs st)
    = history st
      ++ map (λ segment, {| classList := ["message"; "ai"];
                            content := InnerHTML (Scores.segmentMessage segment) |}) segs
  ∧ Flags.combinedMessage segs
    = String.concat " "
        (map (λ segment, Flags.langFlag (lang segment) +:+ " " +:+ text segment) segs).
Proof.
  split; [apply responseContainer_children|].
  split; [|split; [apply displaySegments_history|apply combinedMessage_concat]].
  rewrite responseContainer_children.
  induction segs as [|segment segs IH]; simpl; constructor; [|exact IH].
  unfold Tutor.renderSegment. case_bool_decide; simpl; auto.
Qed.

(** The reply of app.js:1-200 to two segments is one message. *)
Lemma flags_joins_segments_into_one_message :
  history (Flags.sendAudio_resume
             (Http true "OK" (Some (reply (Some [tip_fr; hello_ru]) None)))
             (λ _, PlaysToEnd) (Tutor.loaded "fr" "A1"))
  = [ {| classList := ["message"; "user"]; content := TextContent "Bonjour" |};
      {| classList := ["message"; "ai"];
         content := TextContent "🇫🇷 En russe on dit 🇷🇺 Здравствуйте" |} ]
  ∧ length (filter (λ e, "ai" ∈ classList e)
              (history (Flags.sendAudio_resume
                          (Http true "OK" (Some (reply (Some [tip_fr; hello_ru]) None)))
                          (λ _, PlaysToEnd) (Tutor.loaded "fr" "A1"))))
    ≠ length [tip_fr; hello_ru].
Proof. split; [reflexivity|]. vm_compute. lia. Qed.

(** ** Language indicators *)

Lemma tutor_flag_unrecognized l :
  l ≠ "fr" → l ≠ "ru" → Tutor.langFlag l = EmptyString.
Proof. intros H1 H2. unfold Tutor.langFlag. by rewrite !bool_decide_eq_false_2. Qed.

Lemma tutor_block_unrecognized sourceLang segment :
  lang segment ≠ "fr" → lang segment ≠ "ru" → lang segment ≠ sourceLang →
  Tutor.renderSegment sourceLang segment = TargetText (" " +:+ text segment).
Proof.
  intros H1 H2 H3. rewrite renderSegment_foreign by done.
  by rewrite tutor_flag_unrecognized.
Qed.

(** C8, at the failing input.  The two renderers of src/static/app.js give
    a segment tagged [en] the Russian flag (and the second one the Russian
    language name), where the tutoring client gives it none. *)
Theorem unrecognized_tag_gets_russian_flag :
  Flags.langFlag (lang hello_en) = "🇷🇺"
  ∧ Flags.combinedMessage [hello_en] = "🇷🇺 Hello"
  ∧ Scores.segmentMessage hello_en = "🇷🇺 <strong>Русский:</strong> Hello"
  ∧ Tutor.langFlag (lang hello_en) = EmptyString.
Proof. repeat split. Qed.

(** ** The capture controller *)

(** C3, as the code has it.  [startRecording] has no re-entrancy guard.
    Whatever state the controller is in, a press leaves the requests in
    flight, the history and the session identifier alone.  Without the
    audio capability, or with microphone access refused, it also leaves the
    recorder, the buffered chunks and the page alone; with access granted it
    installs a fresh recorder, empties the chunk buffer and is recording. *)
Theorem press_is_unguarded (mic : MicOutcome) (st : App) :
  inflight (startRecording mic st) = inflight st
  ∧ history (startRecording mic st) = history st
  ∧ currentSessionId (startRecording mic st) = currentSessionId st
  ∧ (mic ≠ Granted →
     page (startRecording mic st) = page st
     ∧ mediaRecorder (startRecording mic st) = mediaRecorder st
     ∧ recorders (startRecording mic st) = recorders st
     ∧ audioChunks (startRecording mic st) = audioChunks st)
  ∧ (mic = Granted →
     mediaRecorder (startRecording mic st) = Some (length (recorders st))
     ∧ recorders (startRecording mic st) = recorders st ++ [recording]
     ∧ audioChunks (startRecording mic st) = []
     ∧ statusText (page (startRecording mic st)) = "Enregistrement..."
     ∧ Tutor.is_recording (startRecording mic st)).
Proof.
  destruct mic; simpl; repeat split; try done.
  exists (length (recorders st)). split; [done|]. simpl.
  rewrite lookup_app_r by lia. by rewrite Nat.sub_diag.
Qed.

Lemma press_is_unguarded_witness :
  audioChunks (startRecording Denied processing) = ["c"]
  ∧ audioChunks (startRecording Granted processing) = []
  ∧ inflight (startRecording Granted processing) = inflight processing.
Proof.
  destruct (press_is_unguarded Denied processing) as (_ & _ & _ & Hkeep & _).
  destruct (press_is_unguarded Granted processing) as (Hfl & _ & _ & _ & Hnew).
  destruct (Hkeep ltac:(discriminate)) as (_ & _ & _ & Hc).
  destruct (Hnew eq_refl) as (_ & _ & Hc' & _).
  split; [rewrite Hc; reflexivity|]. split; [exact Hc'|exact Hfl].
Defined.

(** A press while the upload of the previous utterance is in flight is not
    a no-op: the recorder is replaced and the buffered chunk is gone.  A
    press while recording leaves two recorders live. *)
Lemma press_while_busy_is_not_a_no_op :
  Tutor.is_processing processing
  ∧ (mediaRecorder processing, audioChunks processing, statusText (page processing))
    = (Some 0, ["c"], "Traitement...")
  ∧ (mediaRecorder (Tutor.step (Tutor.Press Granted) processing),
     audioChunks (Tutor.step (Tutor.Press Granted) processing),
     statusText (page (Tutor.step (Tutor.Press Granted) processing)))
    = (Some 1, [], "Enregistrement...")
  ∧ Tutor.is_recording (Tutor.step (Tutor.Press Granted) (Tutor.loaded "fr" "A1"))
  ∧ recorders (Tutor.run [Tutor.Press Granted; Tutor.Press Granted] (Tutor.loaded "fr" "A1"))
    = [recording; recording].
Proof.
  split.
  { eexists. split; [apply list_elem_of_here|reflexivity]. }
  split; [reflexivity|]. split; [reflexivity|]. split; [|reflexivity].
  exists 0. split; reflexivity.
Qed.

(** ** Corrections *)

Section CaseMapping.
Variable toLowerCase : string → string.

(** The first client leaves the sentinel out, in whatever case. *)
Lemma legacy_hides_sentinel data c :
  correction data = Some c →
  toLowerCase c = Legacy.sentinel →
  Legacy.aiContent toLowerCase data = ai_response data.
Proof.
  intros Hc Hs. unfold Legacy.aiContent, Legacy.shown_correction. rewrite Hc. simpl.
  destruct (bool_decide (c = EmptyString)); [done|].
  by rewrite bool_decide_eq_false_2 by naive_solver.
Qed.

(** ... and appends every other non-empty correction to the reply. *)
Lemma legacy_shows_correction data c :
  correction data = Some c →
  c ≠ EmptyString →
  toLowerCase c ≠ Legacy.sentinel →
  Legacy.aiContent toLowerCase data
  = Some (js_str (ai_response data)
          +:+ "<span class=" +:+ Legacy.dquote +:+ "correction" +:+ Legacy.dquote +:+ ">"
          +:+ c +:+ "</span>").
Proof.
  intros Hc Hne Hs. unfold Legacy.aiContent, Legacy.shown_correction. rewrite Hc. simpl.
  rewrite bool_decide_eq_false_2 by done. by rewrite bool_decide_eq_true_2.
Qed.
End CaseMapping.

Example legacy_sentinel_any_case :
  Legacy.toLowerCase_latin "AUCUNE Correction NÉCESSAIRE" = Legacy.sentinel
  ∧ Legacy.aiContent Legacy.toLowerCase_latin no_correction_needed = Some "Привет !".
Proof. split; reflexivity. Qed.

(** C4, at the failing input.  A [/chat] body whose correction is the
    sentinel: the client of app.js:202-352 renders it as a correction
    message, and [displayCorrection] of the tutoring client renders it in
    its panel, while the first client leaves it out of the reply. *)
Theorem sentinel_correction_is_rendered (numberToString : Q → string) (env : nat → Playback) :
  history (Scores.sendAudio_resume numberToString
             (Http true "OK" (Some no_correction_needed)) env (Tutor.loaded "fr" "A1"))
  = [ {| classList := ["message"; "user"]; content := TextContent "Bonjour" |};
      {| classList := ["message"; "correction"];
         content := TextContent "✓ Correction: Aucune correction nécessaire" |} ]
  ∧ history (Tutor.sendAudio_resume "fr"
               (Http true "OK" (Some no_correction_needed)) env (Tutor.loaded "fr" "A1"))
    = [ {| classList := ["message"; "user"]; content := TextContent "Bonjour" |};
        {| classList := ["correction-panel"];
           content := CorrectionHTML
             {| header_class := "incorrect"; icon := "💡"; title := "Correction";
                correction_text := Some "Aucune correction nécessaire";
                correction_explanation := None |} |} ]
  ∧ history (Legacy.sendAudio_resume Legacy.toLowerCase_latin
               (Http true "OK" (Some no_correction_needed)) (Tutor.loaded "fr" "A1"))
    = [ {| classList := ["message"; "user"]; content := TextContent "Bonjour" |};
        {| classList := ["message"; "ai"]; content := InnerHTML "Привет !" |} ].
Proof. repeat split. Qed.

(** ** How the handlers change the history *)

Lemma is_placeholder_placeholder : is_placeholder placeholder_entry = true.
Proof. reflexivity. Qed.

Lemma settled_entries_app h1 h2 :
  settled_entries (h1 ++ h2) = settled_entries h1 ++ settled_entries h2.
Proof. apply filter_app. Qed.

Lemma settled_entries_remove_first h :
  settled_entries (remove_first is_placeholder h) = settled_entries h.
Proof.
  unfold settled_entries. induction h as [|e h IH]; simpl; [done|].
  destruct (is_placeholder e) eqn:He.
  - by rewrite filter_cons_False by (rewrite He; done).
  - rewrite !filter_cons_True by done. by rewrite IH.
Qed.

Lemma history_addMessage t s ph html st :
  history (addMessage t s ph html st)
  = history st ++ [{| classList := if ph then classList_add "placeholder"
                                               (classList_add s ["message"])
                                   else classList_add s ["message"];
                      content := if html then InnerHTML t else TextContent t |}].
Proof. unfold history, addMessage; simpl. by destruct ph. Qed.

Lemma history_appendChild e st : history (appendChild e st) = history st ++ [e].
Proof. reflexivity. Qed.

Lemma history_remove_placeholder st :
  history (remove_placeholder st) = remove_first is_placeholder (history st).
Proof. reflexivity. Qed.

Section Extends.
Variable base : list Entry.

Lemma extends_same st st' : history st' = history st → extends base st → extends base st'.
Proof. unfold extends. by intros ->. Qed.

Lemma extends_appendChild e st : extends base st → extends base (appendChild e st).
Proof.
  unfold extends. rewrite history_appendChild, settled_entries_app. apply prefix_app_r.
Qed.

Lemma extends_addMessage t s ph html st :
  extends base st → extends base (addMessage t s ph html st).
Proof.
  unfold extends. rewrite history_addMessage, settled_entries_app. apply prefix_app_r.
Qed.

Lemma extends_remove_placeholder st : extends base st → extends base (remove_placeholder st).
Proof.
  unfold extends. by rewrite history_remove_placeholder, settled_entries_remove_first.
Qed.

Lemma extends_with_status s st : extends base st → extends base (with_page (set_status s) st).
Proof. by apply extends_same. Qed.

Lemma extends_effect e st : extends base st → extends base (effect e st).
Proof. by apply extends_same. Qed.

Lemma extends_effects es st : extends base st → extends base (effects es st).
Proof. by apply extends_same. Qed.

Lemma extends_set_sessionId id st : extends base st → extends base (set_sessionId id st).
Proof. by apply extends_same. Qed.

Lemma extends_set_inflight fl st : extends base st → extends base (set_inflight fl st).
Proof. by apply extends_same. Qed.

Lemma extends_fetch u form a sl st : extends base st → extends base (fetch u form a sl st).
Proof. by apply extends_same. Qed.

Lemma extends_displayPronunciationFeedback p st :
  extends base st → extends base (displayPronunciationFeedback p st).
Proof. apply extends_appendChild. Qed.

Lemma extends_displayCorrection a st :
  extends base st → extends base (Tutor.displayCorrection a st).
Proof.
  intros H. unfold Tutor.displayCorrection.
  destruct (truthy_str (corrected_text a)), (truthy_str (explanation a));
    try done; by apply extends_appendChild.
Qed.

Lemma extends_sendAudio_catch st : extends base st → extends base (sendAudio_catch st).
Proof.
  intros H. unfold sendAudio_catch.
  by apply extends_remove_placeholder, extends_addMessage, extends_with_status, extends_effect.
Qed.

Lemma extends_startSession_catch st :
  extends base st → extends base (Tutor.startSession_catch st).
Proof. by apply extends_same. Qed.

Lemma extends_await_playback env audio k h st :
  (∀ x, extends base x → extends base (k x)) →
  (∀ x, extends base x → extends base (h x)) →
  extends base st → extends base (await_playback env audio k h st).
Proof.
  intros Hk Hh H. unfold await_playback.
  destruct (playAudioSequentially env audio) as [tr []]; auto using extends_effects.
Qed.

Lemma extends_disable_controls k h st :
  (∀ x, extends base x → extends base (k x)) →
  (∀ x, extends base x → extends base (h x)) →
  extends base st → extends base (Tutor.disable_controls k h st).
Proof.
  intros Hk Hh H. unfold Tutor.disable_controls.
  destruct (level_select (page st)) as [sel|]; [|by apply Hh]. simpl.
  destruct (startBtn (page st)); [apply Hk|apply Hh]; by apply extends_same with st.
Qed.

Lemma extends_displaySegments segs st :
  extends base st → extends base (Scores.displaySegments segs st).
Proof.
  unfold extends. rewrite displaySegments_history, settled_entries_app. apply prefix_app_r.
Qed.
End Extends.

Create HintDb history discriminated.
#[local] Hint Resolve extends_appendChild extends_addMessage extends_remove_placeholder
  extends_with_status extends_effect extends_effects extends_set_sessionId
  extends_set_inflight extends_fetch extends_displayPronunciationFeedback
  extends_displayCorrection extends_sendAudio_catch extends_startSession_catch
  extends_displaySegments : history.

(** Split on what the response holds, then walk through the calls. *)
Ltac walk_history :=
  repeat first
    [ progress eauto 12 with history
    | apply extends_await_playback; [intros ? ?|intros ? ?|]
    | apply extends_disable_controls; [intros ? ?|intros ? ?|]
    | match goal with
      | |- context [match ?x with _ => _ end] => destruct x
      end ].

Lemma extends_tutor_sendAudio_resume base sl o env st :
  extends base st → extends base (Tutor.sendAudio_resume sl o env st).
Proof. intros H. unfold Tutor.sendAudio_resume. walk_history. Qed.

Lemma extends_tutor_startSession_resume base sl o env st :
  extends base st → extends base (Tutor.startSession_resume sl o env st).
Proof. intros H. unfold Tutor.startSession_resume. walk_history. Qed.

Lemma extends_flags_sendAudio_resume base o env st :
  extends base st → extends base (Flags.sendAudio_resume o env st).
Proof. intros H. unfold Flags.sendAudio_resume. walk_history. Qed.

Lemma extends_scores_sendAudio_resume base nts o env st :
  extends base st → extends base (Scores.sendAudio_resume nts o env st).
Proof. intros H. unfold Scores.sendAudio_resume. walk_history. Qed.

Lemma extends_legacy_sendAudio_resume base lower o st :
  extends base st → extends base (Legacy.sendAudio_resume lower o st).
Proof. intros H. unfold Legacy.sendAudio_resume. walk_history. Qed.

(** ** The pronunciation panel *)

Lemma or_zero_missing (o : option Q) :
  o = None ∨ (∃ q, o = Some q ∧ (q == 0)%Q) → or_zero o = 0%Q.
Proof.
  intros [-> | (q & -> & Hq)]; [done|].
  unfold or_zero, truthy_num. apply Qeq_bool_iff in Hq. by rewrite Hq.
Qed.

(** C10.  Whenever the body of a [/chat] response holds a pronunciation
    object, both clients that know the field append the pronunciation panel
    to the history, right behind the transcript of the utterance, and the
    panel stays whatever the rest of the response holds and however the
    playback ends.  When the score is missing or zero the panel is built
    for the score 0: its header reads 0.0%, its bar is empty and in the
    lowest band. *)
Theorem pronunciation_panel_is_rendered
    (sourceLang status : string) (data : ChatData) (p : Pronunciation)
    (env : nat → Playback) (st : App) :
  pronunciation data = Some p →
  (settled_entries (history st)
   ++ [ {| classList := ["message"; "user"]; content := TextContent (user_text data) |};
        {| classList := ["pronunciation-panel"];
           content := PronunciationHTML (pronunciationPanel p) |} ])
    `prefix_of` settled_entries
                  (history (Tutor.sendAudio_resume sourceLang
                              (Http true status (Some data)) env st))
  ∧ (settled_entries (history st)
     ++ [ {| classList := ["message"; "user"]; content := TextContent (user_text data) |};
          {| classList := ["pronunciation-panel"];
             content := PronunciationHTML (pronunciationPanel p) |} ])
      `prefix_of` settled_entries
                    (history (Flags.sendAudio_resume (Http true status (Some data)) env st))
  ∧ (score p = None ∨ (∃ q, score p = Some q ∧ (q == 0)%Q) →
     header (pronunciationPanel p) = "🔄 Prononciation: 0.0%"
     ∧ score_bar (pronunciationPanel p) = "needs-work"
     ∧ score_fill_width (pronunciationPanel p) = 0%Q).
Proof.
  intros Hp.
  assert (Hfront : extends
            (settled_entries (history st)
             ++ [ {| classList := ["message"; "user"]; content := TextContent (user_text data) |};
                  {| classList := ["pronunciation-panel"];
                     content := PronunciationHTML (pronunciationPanel p) |} ])
            (displayPronunciationFeedback p
               (addMessage (user_text data) "user" false false (remove_placeholder st)))).
  { unfold extends, displayPronunciationFeedback.
    rewrite history_appendChild, history_addMessage, history_remove_placeholder.
    rewrite !settled_entries_app, settled_entries_remove_first, <- app_assoc.
    reflexivity. }
  split; [|split].
  - change (extends
      (settled_entries (history st)
       ++ [ {| classList := ["message"; "user"]; content := TextContent (user_text data) |};
            {| classList := ["pronunciation-panel"];
               content := PronunciationHTML (pronunciationPanel p) |} ])
      (Tutor.sendAudio_resume sourceLang (Http true status (Some data)) env st)).
    unfold Tutor.sendAudio_resume. rewrite Hp.
    set (st1 := displayPronunciationFeedback p _) in *. clearbody st1. walk_history.
  - change (extends
      (settled_entries (history st)
       ++ [ {| classList := ["message"; "user"]; content := TextContent (user_text data) |};
            {| classList := ["pronunciation-panel"];
               content := PronunciationHTML (pronunciationPanel p) |} ])
      (Flags.sendAudio_resume (Http true status (Some data)) env st)).
    unfold Flags.sendAudio_resume. rewrite Hp.
    set (st1 := displayPronunciationFeedback p _) in *. clearbody st1. walk_history.
  - intros Hs. apply or_zero_missing in Hs.
    unfold pronunciationPanel; simpl. rewrite Hs. repeat split.
Qed.

Lemma pronunciation_panel_is_rendered_witness :
  header (pronunciationPanel unscored) = "🔄 Prononciation: 0.0%"
  ∧ history (Tutor.sendAudio_resume "fr" (Http true "OK" (Some unscored_reply))
               (λ _, PlaysToEnd) processing)
    = [ {| classList := ["message"; "user"]; content := TextContent "Bonjour" |};
        {| classList := ["pronunciation-panel"];
           content := PronunciationHTML (pronunciationPanel unscored) |};
        {| classList := ["message"; "ai"];
           content := Blocks [TargetText "🇷🇺 Здравствуйте"] |} ].
Proof.
  destruct (pronunciation_panel_is_rendered "fr" "OK" unscored_reply unscored
              (λ _, PlaysToEnd) processing eq_refl) as (_ & _ & Hzero).
  destruct (Hzero (or_introl eq_refl)) as (Hh & _). split; [exact Hh|reflexivity].
Defined.

(** ** The history is append-only up to the placeholder *)

Lemma fold_tip_toggle b : fold_tip (Tutor.toggle_onclick b) = fold_tip b.
Proof. by destruct b. Qed.

Lemma skeleton_toggle j e : skeleton (Tutor.toggle_entry j e) = skeleton e.
Proof.
  unfold skeleton, Tutor.toggle_entry. destruct e as [cl []]; simpl; try done.
  rewrite (list_fmap_alter fold_tip Tutor.toggle_onclick id).
  - by rewrite list_alter_id.
  - apply Forall_forall. intros b _. apply fold_tip_toggle.
Qed.

Lemma is_placeholder_toggle j e :
  is_placeholder (Tutor.toggle_entry j e) = is_placeholder e.
Proof. unfold Tutor.toggle_entry. by destruct e as [cl []]. Qed.

Lemma skeleton_alter_toggle (i j : nat) (h : list Entry) :
  skeleton <$> alter (Tutor.toggle_entry j) i h = skeleton <$> h.
Proof.
  rewrite (list_fmap_alter skeleton (Tutor.toggle_entry j) id).
  - by rewrite list_alter_id.
  - apply Forall_forall. intros e _. apply skeleton_toggle.
Qed.

Lemma settled_alter_toggle (i j : nat) (h : list Entry) :
  skeleton <$> settled_entries (alter (Tutor.toggle_entry j) i h)
  = skeleton <$> settled_entries h.
Proof.
  unfold settled_entries. revert i; induction h as [|e h IH]; intros i; [done|].
  destruct i as [|i]; simpl.
  - rewrite !filter_cons, is_placeholder_toggle.
    destruct (decide (is_placeholder e = false)); simpl; [|done].
    by rewrite skeleton_toggle.
  - rewrite !filter_cons. destruct (decide (is_placeholder e = false)); simpl.
    + f_equal. apply IH.
    + apply IH.
Qed.

(** Outside the settlement of a request a step leaves the history as it
    is, up to the open/closed state of the tips, or appends the placeholder. *)
Lemma step_before_response a st :
  (∀ i o env, a ≠ Tutor.StartSettles i o env) →
  (∀ i o env, a ≠ Tutor.ChatSettles i o env) →
  skeleton <$> history (Tutor.step a st) = skeleton <$> history st
  ∨ history (Tutor.step a st) = history st ++ [placeholder_entry].
Proof.
  intros Hs Hc. destruct a as [mic| | | | | | |l|v|v|i j]; simpl.
  - left. by destruct mic.
  - left. unfold stopRecording.
    destruct (mediaRecorder st); [|done]. destruct (recorders st !! _) as [[]|]; done.
  - by left.
  - unfold Tutor.sendAudio_begin. destruct (lang_checked (page st)); [right|left]; done.
  - left. destruct (startBtn (page st)) as [[[] ?]|]; try done.
    unfold Tutor.startSession_begin; simpl.
    destruct (lang_checked (page st)); [|done]. by destruct (level_select (page st)).
  - by destruct (Hs i o env).
  - by destruct (Hc i o env).
  - left. by destruct (lang_disabled (page st)).
  - left. destruct (level_select (page st)) as [[? []]|]; done.
  - left. by destruct (api_version_select (page st)).
  - left. apply skeleton_alter_toggle.
Qed.

Lemma prefix_fmap {A B} (f : A → B) (l1 l2 : list A) :
  l1 `prefix_of` l2 → (f <$> l1) `prefix_of` (f <$> l2).
Proof. intros [k ->]. exists (f <$> k). by rewrite fmap_app. Qed.

Lemma is_placeholder_skeleton e : is_placeholder (skeleton e) = is_placeholder e.
Proof. unfold skeleton. by destruct e as [cl []]. Qed.

Lemma settled_skeleton (h : list Entry) :
  skeleton <$> settled_entries h = settled_entries (skeleton <$> h).
Proof.
  unfold settled_entries. induction h as [|e h IH]; [done|].
  rewrite fmap_cons, !filter_cons, is_placeholder_skeleton.
  destruct (decide (is_placeholder e = false)); [|done].
  rewrite fmap_cons. by f_equal.
Qed.

Lemma step_extends a st :
  (skeleton <$> settled_entries (history st))
    `prefix_of` (skeleton <$> settled_entries (history (Tutor.step a st))).
Proof.
  destruct a as [mic| | | | |i o env|i o env|l|v|v|i j].
  7: { simpl. destruct (inflight st !! i) as [[r [] sl]|]; try done.
       apply prefix_fmap. apply extends_tutor_sendAudio_resume. by unfold extends. }
  6: { simpl. destruct (inflight st !! i) as [[r [] sl]|]; try done.
       apply prefix_fmap. apply extends_tutor_startSession_resume. by unfold extends. }
  all: match goal with
       | |- context [Tutor.step ?a ?s] =>
           destruct (step_before_response a s ltac:(done) ltac:(done)) as [Heq | Heq]
       end.
  all: first [ by rewrite !settled_skeleton, Heq
             | rewrite Heq, settled_entries_app; simpl; by rewrite app_nil_r ].
Qed.

(** C9, as the code has it.  Along any run of the tutoring client the
    entries of the history other than the placeholder only ever grow at the
    end: none of them is removed, and none is changed but for a tip being
    opened or closed by a click on its toggle.  Before the response to a
    request has arrived (or failed) a step adds nothing to the history but
    the placeholder, which [sendAudio] appends when it sends the request
    and which is taken out again when the request settles. *)
Theorem history_append_only_up_to_placeholder
    (acts : list Tutor.Action) (a : Tutor.Action) (st : App) :
  (skeleton <$> settled_entries (history st))
    `prefix_of` (skeleton <$> settled_entries (history (Tutor.run acts st)))
  ∧ ((∀ i o env, a ≠ Tutor.StartSettles i o env) →
     (∀ i o env, a ≠ Tutor.ChatSettles i o env) →
     skeleton <$> history (Tutor.step a st) = skeleton <$> history st
     ∨ history (Tutor.step a st) = history st ++ [placeholder_entry]).
Proof.
  split; [|apply step_before_response].
  revert st; induction acts as [|b acts IH]; intros st; [done|].
  simpl. etrans; [apply (step_extends b)|apply IH].
Qed.

Lemma history_append_only_up_to_placeholder_witness :
  history (Tutor.step Tutor.Stopped (Tutor.loaded "fr" "A1")) = [placeholder_entry]
  ∧ [] `prefix_of`
       (skeleton <$> settled_entries
          (history (Tutor.run [Tutor.Stopped;
                               Tutor.ChatSettles 0 (Http true "OK" (Some unscored_reply))
                                 (λ _, PlaysToEnd)]
                      (Tutor.loaded "fr" "A1")))).
Proof.
  destruct (history_append_only_up_to_placeholder
              [Tutor.Stopped;
               Tutor.ChatSettles 0 (Http true "OK" (Some unscored_reply)) (λ _, PlaysToEnd)]
              Tutor.Stopped (Tutor.loaded "fr" "A1")) as (Hrun & Hstep).
  split; [|exact Hrun].
  destruct Hstep as [Heq | Heq]; [discriminate..| |exact Heq].
  exfalso. discriminate Heq.
Defined.

(** The placeholder enters the history while the request is in flight and
    is gone from it once the response has been rendered. *)
Lemma placeholder_is_added_then_removed :
  history (Tutor.loaded "fr" "A1") = []
  ∧ history (Tutor.step Tutor.Stopped (Tutor.loaded "fr" "A1")) = [placeholder_entry]
  ∧ length (inflight (Tutor.step Tutor.Stopped (Tutor.loaded "fr" "A1"))) = 1
  ∧ history (Tutor.run [Tutor.Stopped;
                        Tutor.ChatSettles 0 (Http true "OK" (Some (reply None None)))
                          (λ _, PlaysToEnd)]
               (Tutor.loaded "fr" "A1"))
    = [ {| classList := ["message"; "user"]; content := TextContent "Bonjour" |} ]
  ∧ ¬ history (Tutor.step Tutor.Stopped (Tutor.loaded "fr" "A1"))
        `prefix_of`
      history (Tutor.run [Tutor.Stopped;
                          Tutor.ChatSettles 0 (Http true "OK" (Some (reply None None)))
                            (λ _, PlaysToEnd)]
                 (Tutor.loaded "fr" "A1")).
Proof.
  repeat split. intros [k Hk]. vm_compute in Hk. discriminate Hk.
Qed.

(** ** Transport failures *)

(** C5.  When the request of [startSession] or of [sendAudio] does not get
    through (no response, or a status outside the success range) the failure
    shows on the page and the state stays consistent.  After a failed
    [startSession] the status line reads "Error starting.", no session
    identifier has been stored, the controls are as they were (so the start
    button, if it was enabled, starts the operation again when clicked), the
    history is untouched, and exactly one request was sent.  After a failed
    [sendAudio] the status line reads "Erreur", the history has gained the
    error marker and nothing else (the placeholder is gone again), session
    identifier and controls are as they were, and exactly one request was
    sent. *)
Theorem transport_failure_is_surfaced
    (l : string) (sel : Select) (o : FetchOutcome StartData) (o' : FetchOutcome ChatData)
    (env : nat → Playback) (st : App) :
  lang_checked (page st) = Some l →
  level_select (page st) = Some sel →
  transport_failure o →
  transport_failure o' →
  (statusText (page (Tutor.startSession o env st)) = "Error starting."
   ∧ currentSessionId (Tutor.startSession o env st) = currentSessionId st
   ∧ controls (Tutor.startSession o env st) = controls st
   ∧ history (Tutor.startSession o env st) = history st
   ∧ inflight (Tutor.startSession o env st) = inflight st
   ∧ log (Tutor.startSession o env st)
     = log st ++ [Fetch {| url := "/start";
                           formData := [("source_lang", Field l);
                                        ("target_lang", Field (Tutor.targetLang l));
                                        ("level", Field (value sel))] |};
                  ConsoleError "Error starting:"]
   ∧ ((∃ cl, startBtn (page st) = Some {| btn_disabled := false; btn_classes := cl |}) →
      Tutor.step Tutor.ClickStart (Tutor.startSession o env st)
      = Tutor.startSession_begin (Tutor.startSession o env st)))
  ∧ (statusText (page (Tutor.sendAudio o' env st)) = "Erreur"
     ∧ currentSessionId (Tutor.sendAudio o' env st) = currentSessionId st
     ∧ controls (Tutor.sendAudio o' env st) = controls st
     ∧ history (Tutor.sendAudio o' env st)
       = remove_first is_placeholder (history st ++ [placeholder_entry; error_entry])
     ∧ settled_entries (history (Tutor.sendAudio o' env st))
       = settled_entries (history st) ++ [error_entry]
     ∧ inflight (Tutor.sendAudio o' env st) = inflight st
     ∧ log (Tutor.sendAudio o' env st)
       = log st ++ [Fetch {| url := "/chat"; formData := Tutor.chatForm l st |};
                    ConsoleError "error"]).
Proof.
  intros Hl Hsel Ho Ho'. split.
  - assert (Hst : Tutor.startSession o env st
                  = Tutor.startSession_catch
                      (effect (Fetch {| url := "/start";
                                        formData := [("source_lang", Field l);
                                                     ("target_lang", Field (Tutor.targetLang l));
                                                     ("level", Field (value sel))] |})
                         (with_page (set_status "Starting session...") st))).
    { unfold Tutor.startSession, Tutor.startSession_begin. simpl. rewrite Hl, Hsel. simpl.
      rewrite removelast_last.
      destruct o as [|[] ? ?]; simpl in Ho; try discriminate; try done.
      all: unfold Tutor.startSession_resume, Tutor.startSession_catch, effect, with_page;
        simpl; by rewrite <- app_assoc. }
    rewrite Hst. unfold controls, history. simpl. rewrite <- app_assoc. simpl.
    repeat split; try done.
    intros [cl Hb]. by rewrite Hb.
  - assert (Hst : Tutor.sendAudio o' env st
                  = sendAudio_catch
                      (effect (Fetch {| url := "/chat"; formData := Tutor.chatForm l st |})
                         (addMessage "..." "user" true false st))).
    { unfold Tutor.sendAudio, Tutor.sendAudio_begin. rewrite Hl. simpl.
      rewrite removelast_last.
      destruct o' as [|[] ? ?]; simpl in Ho'; try discriminate; reflexivity. }
    rewrite Hst.
    unfold controls, history, sendAudio_catch. simpl. rewrite <- !app_assoc. simpl.
    repeat split; try done.
    + rewrite settled_entries_remove_first, settled_entries_app. reflexivity.
Qed.

Lemma transport_failure_is_surfaced_witness :
  statusText (page (Tutor.startSession NetworkError (λ _, PlaysToEnd) (Tutor.loaded "fr" "A1")))
  = "Error starting."
  ∧ currentSessionId (Tutor.startSession NetworkError (λ _, PlaysToEnd) (Tutor.loaded "fr" "A1"))
    = None
  ∧ history (Tutor.sendAudio (Http false "Internal Server Error" None) (λ _, PlaysToEnd)
               (Tutor.loaded "fr" "A1"))
    = [error_entry].
Proof.
  destruct (transport_failure_is_surfaced "fr" {| value := "A1"; disabled := false |}
              NetworkError (Http false "Internal Server Error" None) (λ _, PlaysToEnd)
              (Tutor.loaded "fr" "A1") eq_refl eq_refl I eq_refl)
    as ((Hstatus & Hid & _) & (_ & _ & _ & Hh & _)).
  split; [exact Hstatus|]. split; [exact Hid|]. rewrite Hh. reflexivity.
Defined.

(** ** The session parameters are latched *)

Section Latched.
Variable p : option string * option string * option string.

Lemma latched_same st st' : controls st' = controls st → latched p st → latched p st'.
Proof.
  unfold controls, latched, Tutor.controls_disabled, Tutor.parameters.
  intros [= -> -> -> ->]. done.
Qed.

Lemma latched_appendChild e st : latched p st → latched p (appendChild e st).
Proof. by apply latched_same. Qed.

Lemma latched_addMessage t s ph html st : latched p st → latched p (addMessage t s ph html st).
Proof. by apply latched_same. Qed.

Lemma latched_remove_placeholder st : latched p st → latched p (remove_placeholder st).
Proof. by apply latched_same. Qed.

Lemma latched_with_status s st : latched p st → latched p (with_page (set_status s) st).
Proof. by apply latched_same. Qed.

Lemma latched_effect e st : latched p st → latched p (effect e st).
Proof. by apply latched_same. Qed.

Lemma latched_effects es st : latched p st → latched p (effects es st).
Proof. by apply latched_same. Qed.

Lemma latched_set_sessionId id st : latched p st → latched p (set_sessionId id st).
Proof. by apply latched_same. Qed.

Lemma latched_set_inflight fl st : latched p st → latched p (set_inflight fl st).
Proof. by apply latched_same. Qed.

Lemma latched_fetch u form a sl st : latched p st → latched p (fetch u form a sl st).
Proof. by apply latched_same. Qed.

Lemma latched_displayPronunciationFeedback q st :
  latched p st → latched p (displayPronunciationFeedback q st).
Proof. by apply latched_same. Qed.

Lemma latched_displayCorrection a st : latched p st → latched p (Tutor.displayCorrection a st).
Proof.
  apply latched_same. unfold Tutor.displayCorrection.
  by destruct (truthy_str (corrected_text a)), (truthy_str (explanation a)).
Qed.

Lemma latched_sendAudio_catch st : latched p st → latched p (sendAudio_catch st).
Proof. by apply latched_same. Qed.

Lemma latched_startSession_catch st : latched p st → latched p (Tutor.startSession_catch st).
Proof. by apply latched_same. Qed.

Lemma latched_await_playback env audio k h st :
  (∀ x, latched p x → latched p (k x)) →
  (∀ x, latched p x → latched p (h x)) →
  latched p st → latched p (await_playback env audio k h st).
Proof.
  intros Hk Hh H. unfold await_playback.
  destruct (playAudioSequentially env audio) as [tr []]; auto using latched_effects.
Qed.

(** Disabling the controls again changes nothing that is latched. *)
Lemma latched_disable_controls k h st :
  (∀ x, latched p x → latched p (k x)) →
  (∀ x, latched p x → latched p (h x)) →
  latched p st → latched p (Tutor.disable_controls k h st).
Proof.
  intros Hk Hh H. unfold Tutor.disable_controls.
  destruct H as ((Hl & (v & Hv) & (cl & Hb)) & Hp).
  rewrite Hv. simpl. rewrite Hb. apply Hk.
  unfold latched, Tutor.controls_disabled, Tutor.parameters in *. simpl.
  rewrite Hv in Hp. simpl in Hp. repeat split; eauto.
Qed.

Lemma latched_startRecording mic st : latched p st → latched p (startRecording mic st).
Proof. apply latched_same. by destruct mic. Qed.

Lemma latched_stopRecording st : latched p st → latched p (stopRecording st).
Proof.
  apply latched_same. unfold stopRecording.
  destruct (mediaRecorder st); [|done]. by destruct (recorders st !! _) as [[]|].
Qed.

Lemma latched_sendAudio_begin st : latched p st → latched p (Tutor.sendAudio_begin st).
Proof.
  apply latched_same. unfold Tutor.sendAudio_begin. by destruct (lang_checked (page st)).
Qed.
End Latched.

Create HintDb latch discriminated.
#[local] Hint Resolve latched_appendChild latched_addMessage latched_remove_placeholder
  latched_with_status latched_effect latched_effects latched_set_sessionId
  latched_set_inflight latched_fetch latched_displayPronunciationFeedback
  latched_displayCorrection latched_sendAudio_catch latched_startSession_catch
  latched_startRecording latched_stopRecording latched_sendAudio_begin : latch.

Ltac walk_controls :=
  repeat first
    [ progress eauto 12 with latch
    | apply latched_await_playback; [intros ? ?|intros ? ?|]
    | apply latched_disable_controls; [intros ? ?|intros ? ?|]
    | match goal with
      | |- context [match ?x with _ => _ end] => destruct x
      end ].

Lemma latched_sendAudio_resume p sl o env st :
  latched p st → latched p (Tutor.sendAudio_resume sl o env st).
Proof. intros H. unfold Tutor.sendAudio_resume. walk_controls. Qed.

Lemma latched_startSession_resume p sl o env st :
  latched p st → latched p (Tutor.startSession_resume sl o env st).
Proof. intros H. unfold Tutor.startSession_resume. walk_controls. Qed.

(** No step of the event loop undoes the latch. *)
Lemma latched_step p a st : latched p st → latched p (Tutor.step a st).
Proof.
  intros H. destruct a as [mic| | | | |i o env|i o env|l|v|v|i j]; simpl.
  - by apply latched_startRecording.
  - by apply latched_stopRecording.
  - by apply latched_same with st.
  - by apply latched_sendAudio_begin.
  - destruct H as ((Hl & Hv & (cl & Hb)) & Hp). rewrite Hb. simpl.
    by repeat split; eauto.
  - destruct (inflight st !! i) as [[r [] sl]|]; try done.
    by apply latched_startSession_resume, latched_set_inflight.
  - destruct (inflight st !! i) as [[r [] sl]|]; try done.
    by apply latched_sendAudio_resume, latched_set_inflight.
  - destruct H as ((Hl & Hv & Hb) & Hp). rewrite Hl. by repeat split.
  - destruct H as ((Hl & (w & Hv) & Hb) & Hp). rewrite Hv. simpl. by repeat split; eauto.
  - apply latched_same with st; [|done]. by destruct (api_version_select (page st)).
  - by apply latched_same with st.
Qed.

Lemma latched_run p acts st : latched p st → latched p (Tutor.run acts st).
Proof.
  revert st; induction acts as [|a acts IH]; intros st H; [done|].
  simpl. by apply IH, latched_step.
Qed.

(** A [/start] response that arrived with a body latches the controls on
    the parameters they hold. *)
Lemma startSession_latches sl status data env st :
  is_Some (level_select (page st)) →
  is_Some (startBtn (page st)) →
  latched (Tutor.parameters st) (Tutor.startSession_resume sl (Http true status (Some data)) env st).
Proof.
  intros [sel Hsel] [b Hb]. unfold Tutor.startSession_resume.
  set (st1 := set_sessionId _ _).
  assert (Hc : controls st1 = controls st).
  { unfold st1. destruct (response data) as [[[segs|]]|]; done. }
  clearbody st1. unfold controls in Hc. injection Hc as Hl1 _ Hsel1 Hb1.
  assert (Hp : Tutor.parameters st1 = Tutor.parameters st).
  { unfold Tutor.parameters. by rewrite Hl1, Hsel1. }
  rewrite <- Hp. rewrite Hsel in Hsel1. rewrite Hb in Hb1.
  unfold Tutor.disable_controls. rewrite Hsel1. simpl. rewrite Hb1.
  set (st2 := with_page (set_startBtn _) _).
  assert (H2 : latched (Tutor.parameters st1) st2).
  { unfold latched, Tutor.controls_disabled, Tutor.parameters, st2. simpl.
    rewrite Hsel1. simpl. repeat split; eauto. }
  clearbody st2. simpl. walk_controls.
Qed.

(** C6.  Once a [/start] response has arrived with its body, the session
    controls (language radios, level select, start button) are disabled and
    hold the parameters they held when the session was started, and they
    stay so through every later run of the event loop: presses and
    releases, recorder events, clicks on the disabled start button,
    settlements of requests, attempts to edit the controls, a change of the
    API version, clicks on tips. *)
Theorem session_parameters_are_latched
    (sourceLang status : string) (data : StartData) (env : nat → Playback)
    (acts : list Tutor.Action) (st : App) :
  is_Some (level_select (page st)) →
  is_Some (startBtn (page st)) →
  Tutor.controls_disabled
    (Tutor.startSession_resume sourceLang (Http true status (Some data)) env st)
  ∧ Tutor.parameters
      (Tutor.startSession_resume sourceLang (Http true status (Some data)) env st)
    = Tutor.parameters st
  ∧ Tutor.controls_disabled
      (Tutor.run acts
         (Tutor.startSession_resume sourceLang (Http true status (Some data)) env st))
  ∧ Tutor.parameters
      (Tutor.run acts
         (Tutor.startSession_resume sourceLang (Http true status (Some data)) env st))
    = Tutor.parameters st.
Proof.
  intros Hsel Hb.
  pose proof (startSession_latches sourceLang status data env st Hsel Hb) as H.
  pose proof (latched_run _ acts _ H) as Hrun.
  destruct H as (H1 & H2), Hrun as (H3 & H4). done.
Qed.

Lemma session_parameters_are_latched_witness :
  Tutor.parameters
    (Tutor.run meddling
       (Tutor.startSession_resume "fr" (Http true "OK" (Some greeting)) (λ _, PlaysToEnd)
          (Tutor.loaded "fr" "A1")))
  = (Some "fr", Some "ru", Some "A1").
Proof.
  destruct (session_parameters_are_latched "fr" "OK" greeting (λ _, PlaysToEnd) meddling
              (Tutor.loaded "fr" "A1")
              (ex_intro _ _ eq_refl) (ex_intro _ _ eq_refl)) as (_ & _ & _ & Hp).
  rewrite Hp. reflexivity.
Defined.

Example session_start_renders_greeting :
  history (Tutor.startSession_resume "fr" (Http true "OK" (Some greeting)) (λ _, PlaysToEnd)
             (Tutor.loaded "fr" "A1"))
  = [ {| classList := ["message"; "ai"];
         content := Blocks [Tip "💡 Traduction (🇫🇷)" ["hidden-content"] "En russe on dit";
                            TargetText "🇷🇺 Здравствуйте"] |} ]
  ∧ currentSessionId (Tutor.startSession_resume "fr" (Http true "OK" (Some greeting))
                        (λ _, PlaysToEnd) (Tutor.loaded "fr" "A1")) = Some "s-1"
  ∧ statusText (page (Tutor.startSession_resume "fr" (Http true "OK" (Some greeting))
                        (λ _, PlaysToEnd) (Tutor.loaded "fr" "A1"))) = "Your turn (Press Mic)".
Proof. repeat split. Qed.

(** ** Where the replies come from *)

Lemma extends_elem_of base e st : e ∈ base → extends base st → e ∈ history st.
Proof.
  intros He [k Hk]. assert (Hin : e ∈ settled_entries (history st)).
  { rewrite Hk. apply elem_of_app. by left. }
  unfold settled_entries in Hin. by apply list_elem_of_filter in Hin as [_ ?].
Qed.

(** [sendAudio] sends the checked language along and its continuation
    classifies the reply against that language. *)
Lemma sendAudio_captures_sourceLang st l :
  lang_checked (page st) = Some l →
  last (inflight (Tutor.sendAudio_begin st))
  = Some {| request := {| url := "/chat"; formData := Tutor.chatForm l st |};
            awaiting := AwaitChat; k_sourceLang := l |}.
Proof.
  intros Hl. unfold Tutor.sendAudio_begin. rewrite Hl. simpl. by rewrite last_snoc.
Qed.

Lemma sendAudio_renders_reply sl status data s segs env st :
  segments data = Some (s :: segs) →
  Tutor.responseContainer sl (s :: segs)
    ∈ history (Tutor.sendAudio_resume sl (Http true status (Some data)) env st).
Proof.
  intros Hsegs. unfold Tutor.sendAudio_resume. rewrite Hsegs.
  match goal with
  | |- context [appendChild ?c ?x] => set (st1 := x); set (st2 := appendChild c st1)
  end.
  assert (H2 : extends (settled_entries (history st1)
                        ++ [Tutor.responseContainer sl (s :: segs)]) st2).
  { unfold extends, st2. rewrite history_appendChild, settled_entries_app. reflexivity. }
  clearbody st2. apply extends_elem_of with
    (settled_entries (history st1) ++ [Tutor.responseContainer sl (s :: segs)]).
  { apply elem_of_app. right. apply list_elem_of_here. }
  walk_history.
Qed.

Lemma startSession_renders_reply sl status data segs env st :
  response data = Some {| r_segments := Some segs |} →
  Tutor.responseContainer sl segs
    ∈ history (Tutor.startSession_resume sl (Http true status (Some data)) env st).
Proof.
  intros Hsegs. unfold Tutor.startSession_resume. rewrite Hsegs.
  set (st2 := set_sessionId _ _).
  assert (H2 : extends (settled_entries (history st) ++ [Tutor.responseContainer sl segs]) st2).
  { unfold extends, st2, history. simpl. rewrite settled_entries_app. reflexivity. }
  clearbody st2. apply extends_elem_of with
    (settled_entries (history st) ++ [Tutor.responseContainer sl segs]).
  { apply elem_of_app. right. apply list_elem_of_here. }
  walk_history.
Qed.

(* ================================================================= *)
(** * Further properties of the code *)

(** ** Recording *)

(** X1.  [stopRecording] acts only on a live recorder: without one (none
    created yet, or the current one already inactive) it changes nothing,
    and after it has run the current recorder is not live, so a second
    release for the same gesture (mouseup and touchend) does nothing. *)
Theorem stopRecording_only_once (st : App) :
  (¬ live st → stopRecording st = st)
  ∧ ¬ live (stopRecording st)
  ∧ stopRecording (stopRecording st) = stopRecording st.
Proof.
  assert (Hidle : ∀ s, ¬ live s → stopRecording s = s).
  { intros s Hs. unfold stopRecording.
    destruct (mediaRecorder s) as [id|] eqn:Hm; [|done].
    destruct (recorders s !! id) as [[]|] eqn:Hr; try done.
    all: exfalso; apply Hs; exists id; eexists; by repeat split. }
  assert (Hdone : ¬ live (stopRecording st)).
  { unfold stopRecording. intros (id & s & Hm & Hr & Hs).
    destruct (mediaRecorder st) as [id'|] eqn:Hm'; [|by rewrite Hm' in Hm].
    destruct (recorders st !! id') as [[]|] eqn:Hr'; simpl in *.
    - rewrite Hm' in Hm. injection Hm as <-. rewrite Hr' in Hr. by injection Hr as <-.
    - injection Hm as <-. apply lookup_lt_Some in Hr'.
      rewrite list_lookup_insert_eq in Hr by done. by injection Hr as <-.
    - injection Hm as <-. apply lookup_lt_Some in Hr'.
      rewrite list_lookup_insert_eq in Hr by done. by injection Hr as <-.
    - rewrite Hm' in Hm. injection Hm as <-. by rewrite Hr' in Hr. }
  split; [apply Hidle|]. split; [exact Hdone|]. by apply Hidle.
Qed.

Lemma stopRecording_only_once_witness :
  stopRecording (Tutor.loaded "fr" "A1") = Tutor.loaded "fr" "A1".
Proof.
  destruct (stopRecording_only_once (Tutor.loaded "fr" "A1")) as (Hidle & _).
  apply Hidle. intros (id & s & Hm & _). discriminate Hm.
Defined.




Lemma run_app acts1 acts2 st :
  Tutor.run (acts1 ++ acts2) st = Tutor.run acts2 (Tutor.run acts1 st).
Proof. apply foldl_app. Qed.

Lemma run_data cs st :
  Tutor.run (Tutor.DataAvailable <$> cs) st
  = set_capture (mediaRecorder st) (recorders st) (audioChunks st ++ cs) st.
Proof.
  revert st; induction cs as [|c cs IH]; intros st.
  - destruct st. unfold set_capture. simpl. by rewrite app_nil_r.
  - simpl. rewrite IH. unfold ondataavailable, set_capture. simpl. by rewrite <- app_assoc.
Qed.

(** What the form of [sendAudio] holds under each name. *)
Lemma chatForm_fields l st :
  get "audio" (Tutor.chatForm l st) = Some (Blob (audioChunks st) "recording.webm")
  ∧ get "source_lang" (Tutor.chatForm l st) = Some (Field l)
  ∧ get "target_lang" (Tutor.chatForm l st) = Some (Field (Tutor.targetLang l))
  ∧ get "level" (Tutor.chatForm l st)
    = Some (Field (match level_select (page st) with Some sel => value sel | None => "A1" end))
  ∧ get "api_version" (Tutor.chatForm l st)
    = (λ v, Field (if bool_decide (v = EmptyString) then "v1" else v))
        <$> api_version_select (page st).
Proof.
  unfold Tutor.chatForm. destruct (api_version_select (page st)) as [v|]; simpl.
  - repeat split. unfold truthy_str. by destruct (bool_decide (v = EmptyString)).
  - by repeat split.
Qed.

(** X3.  One utterance uploads exactly what the recorder delivered for it:
    whatever the chunk buffer held before the press, the [audio] part of the
    request sent at the recorder's stop event is the chunks delivered since
    the press, in the order they arrived, under the file name
    [recording.webm]; the request names the checked language as source, and
    the history has gained the placeholder. *)
Theorem utterance_uploads_its_chunks (l : string) (before after : list Chunk) (st : App) :
  lang_checked (page st) = Some l →
  ∃ form,
    last (inflight (Tutor.run (utterance before after) st))
    = Some {| request := {| url := "/chat"; formData := form |};
              awaiting := AwaitChat; k_sourceLang := l |}
    ∧ get "audio" form = Some (Blob (before ++ after) "recording.webm")
    ∧ get "source_lang" form = Some (Field l)
    ∧ history (Tutor.run (utterance before after) st) = history st ++ [placeholder_entry].
Proof.
  intros Hl. unfold utterance. rewrite !run_app.
  change (Tutor.run [Tutor.Press Granted] st) with (startRecording Granted st).
  rewrite (run_data before).
  set (st2 := set_capture _ _ _ (startRecording Granted st)).
  change (Tutor.run [Tutor.Release] st2) with (stopRecording st2).
  assert (Hstop : stopRecording st2
                  = with_page (set_status "Traitement...")
                      (with_page (λ pg, set_recordBtn (classList_remove "recording" (recordBtn pg)) pg)
                         (set_capture (Some (length (recorders st)))
                            (recorders st ++ [inactive]) before st2))).
  { unfold stopRecording.
    change (mediaRecorder st2) with (Some (length (recorders st))). cbv beta iota.
    change (recorders st2) with (recorders st ++ [recording]).
    change (audioChunks st2) with before.
    rewrite lookup_app_r by lia. rewrite Nat.sub_diag. cbn [lookup list_lookup].
    rewrite insert_app_r_alt by lia. by rewrite Nat.sub_diag. }
  rewrite Hstop. rewrite (run_data after).
  set (st4 := set_capture _ _ _ _).
  change (Tutor.run [Tutor.Stopped] st4) with (Tutor.sendAudio_begin st4).
  unfold Tutor.sendAudio_begin.
  change (lang_checked (page st4)) with (lang_checked (page st)). rewrite Hl.
  eexists. split; [cbn [fetch set_inflight inflight]; by rewrite last_snoc|].
  destruct (chatForm_fields l st4) as (Ha & Hs & _).
  split; [exact Ha|]. split; [exact Hs|]. reflexivity.
Qed.

Lemma utterance_uploads_its_chunks_witness :
  ∃ form,
    last (inflight (Tutor.run (utterance ["a"] ["b"; "c"]) processing))
    = Some {| request := {| url := "/chat"; formData := form |};
              awaiting := AwaitChat; k_sourceLang := "fr" |}
    ∧ get "audio" form = Some (Blob ["a"; "b"; "c"] "recording.webm").
Proof.
  destruct (utterance_uploads_its_chunks "fr" ["a"] ["b"; "c"] processing eq_refl)
    as (form & Hlast & Haudio & _).
  exists form. split; [exact Hlast|exact Haudio].
Defined.

(** ** What the code after a response keeps *)

Lemma addMessage_not_placeholder s cl c :
  cl = classList_add s (classList_add "message" []) →
  is_placeholder {| classList := cl; content := c |} = false.
Proof.
  intros ->. apply not_true_is_false. unfold is_placeholder.
  rewrite !andb_true_iff, !bool_decide_eq_true. simpl. intros [[_ Hu] Hp].
  unfold classList_add in *. simpl in *.
  destruct (bool_decide (s ∈ ["message"])); simpl in *;
    rewrite ?elem_of_cons, ?elem_of_nil in Hu, Hp.
  - by destruct Hu as [[=]|[]].
  - destruct Hu as [[=]|[<-|[]]]. by destruct Hp as [[=]|[[=]|[]]].
Qed.

Section Rendering.
Context (P : App → Prop) `{!Stable P}.

Lemma stable_addMessage t s html st : P st → P (addMessage t s false html st).
Proof.
  intros H.
  change (addMessage t s false html st)
    with (appendChild {| classList := classList_add s (classList_add "message" []);
                         content := if html then InnerHTML t else TextContent t |} st).
  apply stable_append; [|done]. by apply (addMessage_not_placeholder s).
Qed.

Lemma stable_displayPronunciationFeedback p st :
  P st → P (displayPronunciationFeedback p st).
Proof. intros H. by apply stable_append. Qed.

Lemma stable_displayCorrection a st : P st → P (Tutor.displayCorrection a st).
Proof.
  intros H. unfold Tutor.displayCorrection.
  destruct (truthy_str (corrected_text a)), (truthy_str (explanation a));
    try done; by apply stable_append.
Qed.

Lemma stable_responseContainer sl segs st :
  P st → P (appendChild (Tutor.responseContainer sl segs) st).
Proof. intros H. by apply stable_append. Qed.

Lemma stable_sendAudio_catch st : P st → P (sendAudio_catch st).
Proof.
  intros H. unfold sendAudio_catch.
  by apply stable_remove, stable_addMessage, stable_status, stable_console.
Qed.

Lemma stable_startSession_catch st : P st → P (Tutor.startSession_catch st).
Proof. intros H. unfold Tutor.startSession_catch. by apply stable_status, stable_console. Qed.

Lemma stable_await_playback env audio k h st :
  (∀ x, P x → P (k x)) → (∀ x, P x → P (h x)) →
  P st → P (await_playback env audio k h st).
Proof.
  intros Hk Hh H. unfold await_playback.
  destruct (playAudioSequentially env audio) as [tr []];
    [apply Hk|apply Hh|]; by apply stable_sounds.
Qed.

Lemma stable_displaySegments segs st : P st → P (Scores.displaySegments segs st).
Proof.
  revert st; induction segs as [|s segs IH]; intros st H; [done|].
  apply IH. by apply stable_addMessage.
Qed.

Lemma stable_clip u st : P st → P (effect (Sound (Play 0 u)) st).
Proof. intros H. by apply (stable_sounds [Play 0 u]). Qed.

Ltac walk_stable :=
  repeat first
    [ assumption
    | apply stable_sendAudio_catch | apply stable_startSession_catch
    | apply stable_displayPronunciationFeedback | apply stable_displayCorrection
    | apply stable_responseContainer | apply stable_displaySegments | apply stable_clip
    | apply stable_status | apply stable_remove | apply stable_addMessage
    | apply stable_console
    | apply stable_await_playback; [intros ? ?|intros ? ?|]
    | match goal with
      | |- context [match ?x with _ => _ end] => destruct x
      end ].

Lemma stable_tutor_sendAudio_resume sl o env st :
  P st → P (Tutor.sendAudio_resume sl o env st).
Proof. intros H. unfold Tutor.sendAudio_resume. walk_stable. Qed.

(** With a response and its body, what holds once the placeholder is out
    holds at the end. *)
Lemma stable_tutor_after_removal sl status data env st :
  P (remove_placeholder st) →
  P (Tutor.sendAudio_resume sl (Http true status (Some data)) env st).
Proof. intros H. unfold Tutor.sendAudio_resume. walk_stable. Qed.

Lemma stable_flags_sendAudio_resume o env st : P st → P (Flags.sendAudio_resume o env st).
Proof. intros H. unfold Flags.sendAudio_resume. walk_stable. Qed.

Lemma stable_scores_sendAudio_resume nts o env st :
  P st → P (Scores.sendAudio_resume nts o env st).
Proof. intros H. unfold Scores.sendAudio_resume. walk_stable. Qed.

Lemma stable_legacy_sendAudio_resume lower o st :
  P st → P (Legacy.sendAudio_resume lower o st).
Proof. intros H. unfold Legacy.sendAudio_resume. walk_stable. Qed.
End Rendering.

Section Starting.
Context (P : App → Prop) `{!StableStart P}.

#[local] Instance starting_is_stable : Stable P := stable_start_rendering.

Lemma stable_disable_controls k h st :
  (∀ x, P x → P (k x)) → (∀ x, P x → P (h x)) →
  P st → P (Tutor.disable_controls k h st).
Proof.
  intros Hk Hh H. unfold Tutor.disable_controls.
  destruct (level_select (page st)) as [sel|]; [|by apply Hh].
  set (st1 := with_page (set_lang_disabled true) _).
  assert (H1 : P st1) by (by apply stable_lang_disabled, stable_level).
  clearbody st1. destruct (startBtn (page st1)); [apply Hk|apply Hh]; [|done].
  by apply stable_startBtn.
Qed.

Lemma stable_startSession_resume sl o env st :
  P st → P (Tutor.startSession_resume sl o env st).
Proof.
  intros H. unfold Tutor.startSession_resume.
  destruct o as [|[] status [data|]];
    try (by apply (stable_startSession_catch P)).
  apply stable_disable_controls; [| |].
  - intros x Hx. destruct (start_audio_segments data).
    + apply (stable_await_playback P); [|intros y Hy; by apply (stable_startSession_catch P)|done].
      intros y Hy. by apply stable_status.
    + by apply stable_status.
  - intros x Hx. by apply (stable_startSession_catch P).
  - apply stable_sessionId.
    destruct (response data) as [[[segs|]]|];
      first [by apply (stable_responseContainer P) | by apply (stable_addMessage P)].
Qed.
End Starting.

Lemma requests_app_other st es :
  (∀ e, e ∈ es → ∀ r, e ≠ Fetch r) → requests (effects es st) = requests st.
Proof.
  intros Hes. unfold requests, effects. simpl. rewrite omap_app.
  assert (Hnil : omap (λ e, match e with Fetch r => Some r | _ => None end) es = []).
  { induction es as [|e es IH]; [done|]. simpl.
    destruct e; try (apply IH; intros e' He'; apply Hes; by apply list_elem_of_further).
    exfalso. by apply (Hes (Fetch r) (list_elem_of_here _ _) r). }
  by rewrite Hnil, app_nil_r.
Qed.

Lemma requests_sounds tr st : requests (effects (Sound <$> tr) st) = requests st.
Proof.
  apply requests_app_other. intros e He r ->.
  apply list_elem_of_fmap in He as (a & [=] & _).
Qed.

Lemma requests_effect e st : (∀ r, e ≠ Fetch r) → requests (effect e st) = requests st.
Proof.
  intros He. apply (requests_app_other st [e]).
  intros e' ->%list_elem_of_singleton. exact He.
Qed.

#[global] Instance untouched_is_stable v : Stable (λ st, untouched_by_rendering st = v).
Proof.
  split; try done.
  - intros tr st <-. unfold untouched_by_rendering. by rewrite requests_sounds.
  - intros m st <-. unfold untouched_by_rendering. by rewrite requests_effect.
Qed.

(** X4.  Once the request of [sendAudio] has settled, nothing the function
    does (in any of the four revisions, on success and on failure, however
    the playback ends) touches the session identifier, the session controls,
    the recorder, the chunk buffer or the requests in flight, and no further
    request is sent. *)
Theorem rendering_leaves_the_session_alone
    (sl : string) (o : FetchOutcome ChatData) (env : nat → Playback)
    (numberToString : Q → string) (toLowerCase : string → string) (st : App) :
  untouched_by_rendering (Tutor.sendAudio_resume sl o env st) = untouched_by_rendering st
  ∧ untouched_by_rendering (Flags.sendAudio_resume o env st) = untouched_by_rendering st
  ∧ untouched_by_rendering (Scores.sendAudio_resume numberToString o env st)
    = untouched_by_rendering st
  ∧ untouched_by_rendering (Legacy.sendAudio_resume toLowerCase o st)
    = untouched_by_rendering st.
Proof.
  repeat split.
  - by apply (stable_tutor_sendAudio_resume (λ s, untouched_by_rendering s = _)).
  - by apply (stable_flags_sendAudio_resume (λ s, untouched_by_rendering s = _)).
  - by apply (stable_scores_sendAudio_resume (λ s, untouched_by_rendering s = _)).
  - by apply (stable_legacy_sendAudio_resume (λ s, untouched_by_rendering s = _)).
Qed.

(** ** Placeholders and uploads *)

Lemma count_remove_first (h : list Entry) :
  length (filter (λ e, is_placeholder e = true) (remove_first is_placeholder h))
  = pred (length (filter (λ e, is_placeholder e = true) h)).
Proof.
  induction h as [|e h IH]; [done|]. simpl.
  destruct (is_placeholder e) eqn:He.
  - by rewrite filter_cons_True by done.
  - rewrite !filter_cons_False by (rewrite He; done). exact IH.
Qed.

Lemma placeholders_append e st :
  is_placeholder e = false → placeholders (appendChild e st) = placeholders st.
Proof.
  intros He. unfold placeholders. rewrite history_appendChild, filter_app.
  rewrite (filter_cons_False _ e) by (rewrite He; done).
  rewrite filter_nil. by rewrite app_nil_r.
Qed.

Lemma placeholders_remove st :
  placeholders (remove_placeholder st) = pred (placeholders st).
Proof. unfold placeholders. rewrite history_remove_placeholder. apply count_remove_first. Qed.

#[global] Instance placeholders_bound_is_stable n : StableStart (λ st, placeholders st ≤ n)%nat.
Proof.
  split; [split|..]; try done.
  - intros e st He. by rewrite placeholders_append.
  - intros st H. rewrite placeholders_remove. lia.
Qed.

#[global] Instance inflight_is_stable fl : StableStart (λ st, inflight st = fl).
Proof. split; [split|..]; done. Qed.

Lemma count_delete {A} (P : A → Prop) `{∀ x, Decision (P x)} (l : list A) i x :
  l !! i = Some x →
  length (filter P (delete i l))
  = (length (filter P l) - (if decide (P x) then 1 else 0))%nat.
Proof.
  revert i; induction l as [|y l IH]; intros i Hi; [done|].
  destruct i as [|i]; simpl in *.
  - injection Hi as ->. rewrite filter_cons. destruct (decide (P x)); simpl; lia.
  - rewrite !filter_cons. specialize (IH i Hi).
    destruct (decide (P y)); simpl; [|exact IH].
    rewrite IH. destruct (decide (P x)); [|lia].
    assert (0 < length (filter P l))%nat; [|lia].
    assert (Hin : x ∈ filter P l).
    { apply list_elem_of_filter. split; [done|]. by apply list_elem_of_lookup_2 with i. }
    destruct (filter P l); [by apply elem_of_nil in Hin|simpl; lia].
Qed.

Lemma count_alter_toggle (i j : nat) (h : list Entry) :
  length (filter (λ e, is_placeholder e = true) (alter (Tutor.toggle_entry j) i h))
  = length (filter (λ e, is_placeholder e = true) h).
Proof.
  revert i; induction h as [|e h IH]; intros i; [done|].
  destruct i as [|i]; simpl.
  - rewrite !filter_cons, is_placeholder_toggle.
    by destruct (decide (is_placeholder e = true)).
  - rewrite !filter_cons. destruct (decide (is_placeholder e = true)); simpl.
    + f_equal. apply IH.
    + apply IH.
Qed.

#[global] Instance stable_of_start P `{!StableStart P} : Stable P := stable_start_rendering.

Lemma placeholders_catch st : placeholders (sendAudio_catch st) = pred (placeholders st).
Proof.
  unfold sendAudio_catch. rewrite placeholders_remove. f_equal.
  change (addMessage "Erreur lors du traitement." "system" false false ?s)
    with (appendChild error_entry s).
  by rewrite placeholders_append.
Qed.

Lemma placeholders_resume_chat sl o env st n :
  (placeholders st ≤ S n)%nat →
  (placeholders (Tutor.sendAudio_resume sl o env st) ≤ n)%nat.
Proof.
  intros H. destruct o as [|[] status [data|]].
  2: { apply (stable_tutor_after_removal (λ s, placeholders s ≤ n)%nat).
       rewrite placeholders_remove. lia. }
  all: change (Tutor.sendAudio_resume sl _ env st) with (sendAudio_catch st);
    rewrite placeholders_catch; lia.
Qed.

(** Every step keeps the placeholders within the uploads in flight. *)
Lemma placeholders_step a st :
  (placeholders st ≤ uploads st)%nat →
  (placeholders (Tutor.step a st) ≤ uploads (Tutor.step a st))%nat.
Proof.
  intros H. destruct a as [mic| | | | |i o env|i o env|l|v|v|i j]; simpl.
  - by destruct mic.
  - unfold stopRecording.
    destruct (mediaRecorder st); [|done]. by destruct (recorders st !! _) as [[]|].
  - done.
  - unfold Tutor.sendAudio_begin. destruct (lang_checked (page st)); [|done].
    unfold placeholders, uploads, history in *. simpl.
    rewrite !filter_app, !length_app. simpl. lia.
  - destruct (startBtn (page st)) as [[[] ?]|]; try done.
    unfold Tutor.startSession_begin. simpl.
    destruct (lang_checked (page st)); [|done]. destruct (level_select (page st)); [|done].
    unfold placeholders, uploads, history in *. simpl.
    rewrite filter_app, length_app. simpl. lia.
  - destruct (inflight st !! i) as [[r [] sl]|] eqn:Hi; try done.
    set (st1 := set_inflight _ st).
    assert (Hu : uploads st1 = uploads st).
    { unfold uploads, st1. simpl. rewrite (count_delete _ _ _ _ Hi). simpl. lia. }
    assert (Hp : (placeholders st1 ≤ uploads st)%nat) by exact H.
    clearbody st1.
    pose proof (stable_startSession_resume (λ s, placeholders s ≤ uploads st)%nat
                  sl o env st1 Hp) as Hp'.
    pose proof (stable_startSession_resume (λ s, inflight s = inflight st1)
                  sl o env st1 eq_refl) as Hi'.
    unfold uploads at 1. rewrite Hi'. fold (uploads st1). by rewrite Hu.
  - destruct (inflight st !! i) as [[r [] sl]|] eqn:Hi; try done.
    set (st1 := set_inflight _ st).
    assert (Hu : S (uploads st1) = uploads st).
    { unfold uploads, st1. simpl. rewrite (count_delete _ _ _ _ Hi). simpl.
      assert (Hin : {| request := r; awaiting := AwaitChat; k_sourceLang := sl |}
                      ∈ filter (λ fl, awaiting fl = AwaitChat) (inflight st)).
      { apply list_elem_of_filter. split; [done|]. by apply list_elem_of_lookup_2 with i. }
      destruct (filter _ (inflight st)); [by apply elem_of_nil in Hin|simpl; lia]. }
    assert (Hp : (placeholders st1 ≤ S (uploads st1))%nat) by (rewrite Hu; exact H).
    clearbody st1.
    pose proof (placeholders_resume_chat sl o env st1 _ Hp) as Hp'.
    pose proof (stable_tutor_sendAudio_resume (λ s, inflight s = inflight st1)
                  sl o env st1 eq_refl) as Hi'.
    unfold uploads at 1. rewrite Hi'. exact Hp'.
  - by destruct (lang_disabled (page st)).
  - by destruct (level_select (page st)) as [[? []]|].
  - by destruct (api_version_select (page st)).
  - unfold placeholders, uploads, history in *. simpl. by rewrite count_alter_toggle.
Qed.

(** X5.  Along any run of the tutoring client the history never holds more
    placeholders than there are uploads in flight, provided it did not at
    the start (as on the freshly loaded page); so once every upload has
    settled no placeholder is left in the history. *)
Theorem placeholders_within_uploads (acts : list Tutor.Action) (st : App) :
  (placeholders st ≤ uploads st)%nat →
  (placeholders (Tutor.run acts st) ≤ uploads (Tutor.run acts st))%nat
  ∧ (uploads (Tutor.run acts st) = 0%nat →
     Forall (λ e, is_placeholder e = false) (history (Tutor.run acts st))).
Proof.
  intros H.
  assert (Hrun : (placeholders (Tutor.run acts st) ≤ uploads (Tutor.run acts st))%nat).
  { revert st H; induction acts as [|a acts IH]; intros st H; [done|].
    simpl. by apply IH, placeholders_step. }
  split; [exact Hrun|]. intros H0. rewrite H0 in Hrun.
  unfold placeholders in Hrun. apply Forall_forall. intros e He.
  destruct (is_placeholder e) eqn:Hph; [|done]. exfalso.
  assert (Hin : e ∈ filter (λ e, is_placeholder e = true) (history (Tutor.run acts st))).
  { by apply list_elem_of_filter. }
  destruct (filter _ (history (Tutor.run acts st))); [by apply elem_of_nil in Hin|].
  simpl in Hrun. lia.
Qed.

Lemma placeholders_within_uploads_witness :
  Forall (λ e, is_placeholder e = false)
    (history (Tutor.run (utterance [] ["c"]
                         ++ [Tutor.ChatSettles 0 NetworkError (λ _, PlaysToEnd)])
                (Tutor.loaded "fr" "A1"))).
Proof.
  destruct (placeholders_within_uploads
              (utterance [] ["c"] ++ [Tutor.ChatSettles 0 NetworkError (λ _, PlaysToEnd)])
              (Tutor.loaded "fr" "A1")) as (_ & H).
  - exact (le_n 0).
  - apply H. reflexivity.
Defined.

(** ** The requests *)

Lemma requests_fetch u form a sl st :
  requests (fetch u form a sl st) = requests st ++ [{| url := u; formData := form |}].
Proof. unfold requests, fetch. simpl. by rewrite omap_app. Qed.

#[global] Instance requests_are_stable rs : StableStart (λ st, requests st = rs).
Proof.
  split; [split|..]; try done.
  - intros tr st <-. apply requests_sounds.
  - intros m st <-. by apply requests_effect.
Qed.

(** A step sends at most one request, and only from [sendAudio] or from
    [startSession] behind an enabled start button. *)
Lemma step_requests a st :
  requests (Tutor.step a st) = requests st
  ∨ ∃ r, requests (Tutor.step a st) = requests st ++ [r] ∧ sent_from st r.
Proof.
  destruct a as [mic| | | | |i o env|i o env|l|v|v|i j]; simpl.
  - left. destruct mic; try done.
    + by apply requests_effect.
    + unfold requests. simpl. rewrite <- app_assoc. rewrite omap_app. simpl.
      by rewrite app_nil_r.
  - left. unfold stopRecording.
    destruct (mediaRecorder st); [|done]. by destruct (recorders st !! _) as [[]|].
  - by left.
  - unfold Tutor.sendAudio_begin. destruct (lang_checked (page st)) as [l|] eqn:Hl.
    + right. eexists. split; [rewrite requests_fetch; reflexivity|].
      exists l. split; [done|by left].
    + left. by apply requests_effect.
  - destruct (startBtn (page st)) as [[[] cl]|] eqn:Hb; try by left.
    unfold Tutor.startSession_begin. simpl.
    destruct (lang_checked (page st)) as [l|] eqn:Hl;
      [|left; by rewrite requests_effect].
    destruct (level_select (page st)) as [sel|] eqn:Hsel;
      [|left; by rewrite requests_effect].
    right. eexists. split; [rewrite requests_fetch; reflexivity|].
    exists l. split; [done|]. right. by exists sel, cl.
  - left. destruct (inflight st !! i) as [[r [] sl]|]; try done.
    by apply (stable_startSession_resume (λ s, requests s = requests st)).
  - left. destruct (inflight st !! i) as [[r [] sl]|]; try done.
    by apply (stable_tutor_sendAudio_resume (λ s, requests s = requests st)).
  - left. by destruct (lang_disabled (page st)).
  - left. by destruct (level_select (page st)) as [[? []]|].
  - left. by destruct (api_version_select (page st)).
  - by left.
Qed.

Lemma targetLang_other l :
  l ≠ Tutor.targetLang l ∧ (Tutor.targetLang l = "fr" ∨ Tutor.targetLang l = "ru").
Proof. unfold Tutor.targetLang. case_bool_decide; subst; split; auto. Qed.

Lemma sent_from_well_addressed st r : sent_from st r → well_addressed r.
Proof.
  intros (l & Hl & [-> | (sel & cl & _ & _ & ->)]).
  - split; [by right|]. exists l, (Tutor.targetLang l).
    destruct (chatForm_fields l st) as (_ & Hs & Ht & _).
    destruct (targetLang_other l). by repeat split.
  - split; [by left|]. exists l, (Tutor.targetLang l).
    destruct (targetLang_other l). by repeat split.
Qed.

(** X6.  Whatever the user does and whatever the page holds, every request
    the tutoring client sends along a run goes to [/start] or [/chat] and
    names two different languages, the target being [fr] or [ru]. *)
Theorem requests_are_well_addressed (acts : list Tutor.Action) (st : App) :
  ∃ new, requests (Tutor.run acts st) = requests st ++ new ∧ Forall well_addressed new.
Proof.
  revert st; induction acts as [|a acts IH]; intros st.
  - exists []. by rewrite app_nil_r.
  - simpl. destruct (IH (Tutor.step a st)) as (new & Hnew & Hok).
    destruct (step_requests a st) as [Heq | (r & Heq & Hr)]; rewrite Heq in Hnew.
    + by exists new.
    + exists (r :: new). rewrite Hnew, <- app_assoc. split; [done|].
      constructor; [by apply sent_from_well_addressed with st|done].
Qed.





(** ** A whole response *)

(** X8.  What [sendAudio] of the tutoring client makes of a response with a
    body.  A placeholder goes and the history gains, in this order, the
    transcript, the pronunciation panel if the body has a pronunciation
    object, the correction panel if it has an analysis with a correction or
    an explanation, and the reply if it has a non-empty segment list: each
    part on its own, whatever else is missing.  Then the clips are played,
    if there are any.  When the playback ends (or there is none) the status
    line reads "Prêt"; when it fails the error marker is appended behind the
    rendered turn, a placeholder is removed once more and the status line
    reads "Erreur"; when it never settles the status line is never reset. *)
Theorem turn_is_rendered_part_by_part
    (sl status : string) (data : ChatData) (env : nat → Playback) (st : App) :
  log (Tutor.sendAudio_resume sl (Http true status (Some data)) env st)
  = log st ++ (Sound <$> (turn_playback env (audio_segments data)).1)
    ++ match (turn_playback env (audio_segments data)).2 with
       | Rejected => [ConsoleError "error"]
       | _ => []
       end
  ∧ match (turn_playback env (audio_segments data)).2 with
    | Resolved =>
        history (Tutor.sendAudio_resume sl (Http true status (Some data)) env st)
        = remove_first is_placeholder (history st) ++ turn_entries sl data
        ∧ statusText (page (Tutor.sendAudio_resume sl (Http true status (Some data)) env st))
          = "Prêt"
    | Rejected =>
        history (Tutor.sendAudio_resume sl (Http true status (Some data)) env st)
        = remove_first is_placeholder
            ((remove_first is_placeholder (history st) ++ turn_entries sl data)
             ++ [error_entry])
        ∧ statusText (page (Tutor.sendAudio_resume sl (Http true status (Some data)) env st))
          = "Erreur"
    | Pending =>
        history (Tutor.sendAudio_resume sl (Http true status (Some data)) env st)
        = remove_first is_placeholder (history st) ++ turn_entries sl data
        ∧ statusText (page (Tutor.sendAudio_resume sl (Http true status (Some data)) env st))
          = statusText (page st)
    end.
Proof.
  unfold Tutor.sendAudio_resume.
  set (st3 := match segments data with Some (s :: segs) => _ | _ => _ end).
  assert (H3 : history st3 = remove_first is_placeholder (history st) ++ turn_entries sl data
               ∧ statusText (page st3) = statusText (page st) ∧ log st3 = log st).
  { unfold st3, turn_entries, pronunciation_entries, correction_entries, reply_entries,
      Tutor.displayCorrection.
    destruct (pronunciation data), (user_analysis data) as [a|],
      (segments data) as [[|s segs]|];
      try destruct (truthy_str (corrected_text a)), (truthy_str (explanation a));
      unfold history; simpl; rewrite <- ?app_assoc; done. }
  clearbody st3. destruct H3 as (Hh & Hs & Hl).
  unfold turn_playback.
  destruct (audio_segments data) as [[|c audio]|]; simpl.
  1,3: rewrite app_nil_r; by repeat split.
  unfold await_playback.
  destruct (playAudioSequentially env (c :: audio)) as [tr []]; simpl.
  - rewrite app_nil_r, Hl. by repeat split.
  - rewrite Hl, <- app_assoc. split; [done|]. split; [|done].
    unfold history in *. simpl. by rewrite Hh.
  - rewrite app_nil_r, Hl. by repeat split.
Qed.

(** X9.  What [startSession] makes of a response with a body, on a page
    that has the level select and the start button.  The history gains one
    entry, the reply built from [response.segments] (an empty list gives an
    empty reply) or else the welcome line; the session identifier of the
    body is stored, be it missing; the clips are played if the body has a
    list.  When the playback ends the status line invites the user to
    speak; when it fails the status line reads "Error starting." although
    the greeting is in the history and the session identifier is stored;
    when it never settles the status line stays as it was. *)
Theorem session_start_is_rendered
    (sl status : string) (data : StartData) (env : nat → Playback) (st : App) :
  is_Some (level_select (page st)) →
  is_Some (startBtn (page st)) →
  history (Tutor.startSession_resume sl (Http true status (Some data)) env st)
  = history st ++ greeting_entries sl data
  ∧ currentSessionId (Tutor.startSession_resume sl (Http true status (Some data)) env st)
    = session_id data
  ∧ log (Tutor.startSession_resume sl (Http true status (Some data)) env st)
    = log st ++ (Sound <$> (start_playback env (start_audio_segments data)).1)
      ++ match (start_playback env (start_audio_segments data)).2 with
         | Rejected => [ConsoleError "Error starting:"]
         | _ => []
         end
  ∧ statusText (page (Tutor.startSession_resume sl (Http true status (Some data)) env st))
    = match (start_playback env (start_audio_segments data)).2 with
      | Resolved => "Your turn (Press Mic)"
      | Rejected => "Error starting."
      | Pending => statusText (page st)
      end.
Proof.
  intros [sel Hsel] [b Hb]. unfold Tutor.startSession_resume.
  set (st1 := set_sessionId _ _).
  assert (H1 : history st1 = history st ++ greeting_entries sl data
               ∧ currentSessionId st1 = session_id data
               ∧ log st1 = log st ∧ statusText (page st1) = statusText (page st)
               ∧ level_select (page st1) = Some sel ∧ startBtn (page st1) = Some b).
  { unfold st1, greeting_entries. by destruct (response data) as [[[segs|]]|]. }
  clearbody st1. destruct H1 as (Hh & Hid & Hl & Hs & Hsel1 & Hb1).
  unfold Tutor.disable_controls. rewrite Hsel1. simpl. rewrite Hb1.
  unfold start_playback.
  destruct (start_audio_segments data) as [audio|]; simpl.
  2: { rewrite app_nil_r. by repeat split. }
  unfold await_playback.
  destruct (playAudioSequentially env audio) as [tr []]; simpl.
  - rewrite app_nil_r, Hl. by repeat split.
  - rewrite Hl, <- app_assoc. by repeat split.
  - rewrite app_nil_r, Hl. by repeat split.
Qed.

Lemma session_start_is_rendered_witness :
  statusText (page (Tutor.startSession_resume "fr" (Http true "OK" (Some greeting))
                      second_fails (Tutor.loaded "fr" "A1")))
  = "Error starting."
  ∧ currentSessionId (Tutor.startSession_resume "fr" (Http true "OK" (Some greeting))
                        second_fails (Tutor.loaded "fr" "A1"))
    = Some "s-1".
Proof.
  destruct (session_start_is_rendered "fr" "OK" greeting second_fails (Tutor.loaded "fr" "A1")
              (ex_intro _ _ eq_refl) (ex_intro _ _ eq_refl)) as (_ & Hid & _ & Hs).
  split; [rewrite Hs; reflexivity|exact Hid].
Defined.




(** X11.  What the first client makes of a response with a body.  A
    placeholder goes and the history gains the transcript and one reply: the
    text of [ai_response] followed, when the correction is non-empty and
    does not lower-case to the sentinel, by the correction in a span.  The
    reply clip, if the body names one, is started and not waited for: the
    status line reads "Prêt" whatever the clip does. *)
Theorem legacy_turn_is_rendered
    (toLowerCase : string → string) (status : string) (data : ChatData) (st : App) :
  history (Legacy.sendAudio_resume toLowerCase (Http true status (Some data)) st)
  = remove_first is_placeholder (history st)
    ++ [ user_entry (user_text data);
         {| classList := ["message"; "ai"];
            content :=
              match correction_span toLowerCase (correction data) with
              | EmptyString => InnerHTML (js_str (ai_response data))
              | span => InnerHTML (js_str (ai_response data) +:+ span)
              end |} ]
  ∧ statusText (page (Legacy.sendAudio_resume toLowerCase (Http true status (Some data)) st))
    = "Prêt"
  ∧ log (Legacy.sendAudio_resume toLowerCase (Http true status (Some data)) st)
    = log st ++ match truthy_str (reply_audio_url data) with
                | Some u => [Sound (Play 0 u)]
                | None => []
                end.
Proof.
  unfold Legacy.sendAudio_resume, Legacy.aiContent, Legacy.shown_correction, correction_span.
  split; [|split].
  - unfold history.
    destruct (truthy_str (correction data)) as [c|],
      (truthy_str (reply_audio_url data)); simpl; rewrite <- ?app_assoc; try done.
    all: destruct (decide (toLowerCase c = Legacy.sentinel)) as [Hc|Hc].
    all: first [ rewrite (bool_decide_eq_true_2 _ Hc),
                   (bool_decide_eq_false_2 (toLowerCase c ≠ _)) by (by intros [])
               | rewrite (bool_decide_eq_false_2 _ Hc), (bool_decide_eq_true_2 _ Hc) ].
    all: done.
  - by destruct (truthy_str (reply_audio_url data)).
  - destruct (truthy_str (reply_audio_url data)); simpl; [done|by rewrite app_nil_r].
Qed.

(** ** Tips *)

Lemma odd_S m : Nat.odd (S m) = negb (Nat.odd m).
Proof. by rewrite Nat.odd_succ, <- Nat.negb_odd. Qed.

(** X12.  A rendered tip is closed, and every click on its toggle flips it:
    after [n] clicks the text of a native-language segment shows exactly
    when [n] is odd, two clicks bring the block back as it was rendered, and
    the text of any other segment shows whatever is clicked. *)
Theorem tip_shows_on_odd_clicks (sourceLang : string) (segment : Segment) (n : nat) :
  Tutor.visible (Nat.iter n Tutor.toggle_onclick (Tutor.renderSegment sourceLang segment))
  = bool_decide (lang segment ≠ sourceLang) || Nat.odd n
  ∧ Nat.iter (n + 2) Tutor.toggle_onclick (Tutor.renderSegment sourceLang segment)
    = Nat.iter n Tutor.toggle_onclick (Tutor.renderSegment sourceLang segment).
Proof.
  destruct (decide (lang segment = sourceLang)) as [Heq|Hne].
  - rewrite (renderSegment_native _ _ Heq).
    rewrite (bool_decide_eq_false_2 (lang segment ≠ sourceLang)) by (by intros []).
    assert (Hn : ∀ m, Nat.iter m Tutor.toggle_onclick
                        (Tip ("💡 Traduction (" +:+ Tutor.langFlag (lang segment) +:+ ")")
                           ["hidden-content"] (text segment))
                      = Tip ("💡 Traduction (" +:+ Tutor.langFlag (lang segment) +:+ ")")
                          (if Nat.odd m then ["hidden-content"; "visible"]
                           else ["hidden-content"]) (text segment)).
    { induction m as [|m IH]; [done|].
      rewrite Nat.iter_succ, IH, odd_S. by destruct (Nat.odd m). }
    rewrite !Hn. split.
    + by destruct (Nat.odd n).
    + replace (n + 2)%nat with (S (S n)) by lia.
      by rewrite !odd_S, Bool.negb_involutive.
  - rewrite (renderSegment_foreign _ _ Hne).
    rewrite (bool_decide_eq_true_2 (lang segment ≠ sourceLang)) by done.
    assert (Hn : ∀ m t, Nat.iter m Tutor.toggle_onclick (TargetText t) = TargetText t).
    { induction m as [|m IH]; intros t; [done|]. by rewrite Nat.iter_succ, IH. }
    by rewrite !Hn.
Qed.

(** ** More on the playback *)

Section PlaybackMore.
Variable env : nat → Playback.

Lemma playFrom_app (k : nat) (l1 l2 : list AudioSegment) :
  playFrom env k (l1 ++ l2)
  = match (playFrom env k l1).2 with
    | Resolved =>
        ((playFrom env k l1).1 ++ (playFrom env (k + length l1) l2).1,
         (playFrom env (k + length l1) l2).2)
    | _ => playFrom env k l1
    end.
Proof.
  revert k; induction l1 as [|s l1 IH]; intros k; simpl.
  - rewrite Nat.add_0_r. by destruct (playFrom env k l2).
  - destruct (env k); try done.
    rewrite IH. replace (k + S (length l1))%nat with (S k + length l1)%nat by lia.
    destruct (playFrom env (S k) l1) as [tr1 r1]; simpl.
    destruct r1; try done.
Qed.

Lemma playFrom_resolves (k : nat) (l : list AudioSegment) :
  (playFrom env k l).2 = Resolved ↔ ∀ i, (i < length l)%nat → env (k + i) = PlaysToEnd.
Proof.
  split; [|apply playFrom_all_end].
  revert k; induction l as [|s l IH]; intros k; simpl; [lia|].
  destruct (env k) eqn:Hk; try done.
  specialize (IH (S k)). destruct (playFrom env (S k) l) as [tr r]; simpl in *.
  intros Hr [|i] Hi; [by rewrite Nat.add_0_r|].
  replace (k + S i)%nat with (S k + i)%nat by lia. apply IH; [done|lia].
Qed.
End PlaybackMore.

(** X13.  Playing one sequence behind another.  [playAudioSequentially] on
    two sequences joined plays the first and, only if that resolves, goes
    on with the second (its clips counted on from the length of the first);
    if the first rejects or never settles, the joined call ends as the
    first does and no clip of the second is started. *)
Theorem playback_of_joined_sequences
    (env : nat → Playback) (first second : list AudioSegment) :
  playAudioSequentially env (first ++ second)
  = match (playAudioSequentially env first).2 with
    | Resolved =>
        ((playAudioSequentially env first).1
         ++ (playFrom env (length first) second).1,
         (playFrom env (length first) second).2)
    | _ => playAudioSequentially env first
    end.
Proof. unfold playAudioSequentially. by rewrite playFrom_app. Qed.

(** X14.  [playAudioSequentially] resolves exactly when every clip of the
    sequence plays to its end, and then its trace is a start and an end for
    each clip in turn; otherwise the trace stops at the first clip that does
    not end: with its failure when the call rejects, with its start alone
    when the call never settles. *)
Theorem playback_outcome (env : nat → Playback) (audioSegments : list AudioSegment) :
  ((playAudioSequentially env audioSegments).2 = Resolved
   ↔ ∀ i, (i < length audioSegments)%nat → env i = PlaysToEnd)
  ∧ ((playAudioSequentially env audioSegments).2 = Resolved →
     (playAudioSequentially env audioSegments).1
     = mjoin (imap (λ i s, [Play i (audio_url s); Ended i]) audioSegments))
  ∧ ((playAudioSequentially env audioSegments).2 = Rejected →
     ∃ k u, (k < length audioSegments)%nat
            ∧ (env k = LoadFails ∨ env k = StartRefused)
            ∧ (last (playAudioSequentially env audioSegments).1 = Some (Error k)
               ∨ last (playAudioSequentially env audioSegments).1 = Some (Refused k))
            ∧ Play k u ∈ (playAudioSequentially env audioSegments).1)
  ∧ ((playAudioSequentially env audioSegments).2 = Pending →
     ∃ k u, (k < length audioSegments)%nat ∧ env k = Stalls
            ∧ last (playAudioSequentially env audioSegments).1 = Some (Play k u)).
Proof.
  unfold playAudioSequentially. split; [apply (playFrom_resolves env 0)|].
  assert (Hgen : ∀ k,
    ((playFrom env k audioSegments).2 = Resolved →
     (playFrom env k audioSegments).1
     = mjoin (imap (λ i s, [Play (k + i) (audio_url s); Ended (k + i)]) audioSegments))
    ∧ ((playFrom env k audioSegments).2 = Rejected →
       ∃ j u, (k ≤ j < k + length audioSegments)%nat
              ∧ (env j = LoadFails ∨ env j = StartRefused)
              ∧ (last (playFrom env k audioSegments).1 = Some (Error j)
                 ∨ last (playFrom env k audioSegments).1 = Some (Refused j))
              ∧ Play j u ∈ (playFrom env k audioSegments).1)
    ∧ ((playFrom env k audioSegments).2 = Pending →
       ∃ j u, (k ≤ j < k + length audioSegments)%nat ∧ env j = Stalls
              ∧ last (playFrom env k audioSegments).1 = Some (Play j u))).
  { induction audioSegments as [|s l IH]; intros k; simpl; [done|].
    destruct (env k) eqn:Hk; simpl.
    - destruct (IH (S k)) as (H1 & H2 & H3).
      destruct (playFrom env (S k) l) as [tr r]; simpl in *. split; [|split].
      + intros Hr. rewrite (H1 Hr), Nat.add_0_r. do 2 f_equal. f_equal.
        apply imap_ext. intros i x _. simpl. by rewrite Nat.add_succ_r.
      + intros Hr. destruct (H2 Hr) as (j & u & Hj & Hf & Hlast & Hin).
        exists j, u. split; [lia|]. split; [done|].
        split; [|by do 2 apply list_elem_of_further].
        destruct tr as [|e tr]; [by apply elem_of_nil in Hin|].
        by rewrite !last_cons_cons.
      + intros Hr. destruct (H3 Hr) as (j & u & Hj & Hf & Hlast).
        exists j, u. split; [lia|]. split; [done|].
        destruct tr as [|e tr]; [done|]. by rewrite !last_cons_cons.
    - split; [done|]. split; [|done]. intros _. exists k, (audio_url s).
      split; [lia|]. split; [by left|]. split; [by left|apply list_elem_of_here].
    - split; [done|]. split; [|done]. intros _. exists k, (audio_url s).
      split; [lia|]. split; [by right|]. split; [by right|apply list_elem_of_here].
    - split; [done|]. split; [done|]. intros _. exists k, (audio_url s).
      split; [lia|]. by split. }
  destruct (Hgen 0%nat) as (H1 & H2 & H3). split; [|split].
  - exact H1.
  - intros Hr. destruct (H2 Hr) as (j & u & Hj & Hrest). exists j, u. split; [lia|done].
  - intros Hr. destruct (H3 Hr) as (j & u & Hj & Hrest). exists j, u. split; [lia|done].
Qed.

Lemma playback_outcome_witness :
  ∃ k u, (k < 3)%nat
         ∧ (second_fails k = LoadFails ∨ second_fails k = StartRefused)
         ∧ Play k u ∈ (playAudioSequentially second_fails
                          [clip "a.mp3"; clip "b.mp3"; clip "c.mp3"]).1.
Proof.
  destruct (playback_outcome second_fails [clip "a.mp3"; clip "b.mp3"; clip "c.mp3"])
    as (_ & _ & Hrej & _).
  destruct (Hrej eq_refl) as (k & u & Hk & Hf & _ & Hin).
  exists k, u. split; [exact Hk|]. split; [exact Hf|exact Hin].
Defined.
